(** * AES-GCM (aes.h / aes.c): a shallow embedding and its properties

    Bytes ([uint8_t]) are integers in [0, 256); every place where the C
    arithmetic can leave that range carries its truncation ([u8]).  Arrays
    are lists indexed from 0; a pointer argument is either NULL or the
    array it points to.  The architecture-specific fast paths of [Cipher]
    and [ghash_gmul] are compiled out; the portable C code is what is
    modelled. *)

From Stdlib Require Import ZArith List Lia Bool Btauto.
From stdpp Require Import base option list strings gmap.

(** ** Bytes and arrays *)

Definition u8 (z : Z) : Z := (z mod 256)%Z.
Definition u64 (z : Z) : Z := (z mod 2 ^ 64)%Z.

Definition is_byte (b : Z) : Prop := (0 <= b < 256)%Z.

(** [a[i]] for an array of bytes.  A load outside the extent of the array
    is undefined in C; the model reads 0 there, and no theorem relies on it
    without saying so. *)
Definition peek (a : list Z) (i : nat) : Z := default 0%Z (a !! i).

Definition zeros (n : nat) : list Z := replicate n 0%Z.

(** [for (k = 0; k < 16; ++k) a[k] ^= b[off + k];] on a 16-byte array [a]. *)
Definition xor16 (a b : list Z) (off : nat) : list Z :=
  map (fun k => Z.lxor (peek a k) (peek b (off + k))) (seq 0 16).

(** [memcpy(dst, src, n)] and [memset(dst, c, n)] on the first [n] bytes of
    [dst]. *)
Definition memcpy (dst src : list Z) (n : nat) : list Z :=
  map (peek src) (seq 0 n) ++ drop n dst.
Definition memset (dst : list Z) (c : Z) (n : nat) : list Z :=
  replicate n c ++ drop n dst.

(** A counted loop [for (i = lo; i < lo + n; ++i) body]. *)
Definition for_range {St : Type} (lo n : nat) (body : nat -> St -> St) (s : St) : St :=
  fold_left (fun s i => body i s) (seq lo n) s.

(** ** Build configuration (aes.h, lines 26-53; aes.c, lines 42-56) *)

(** Each flag is true when the macro is defined and equal to 1. *)
Record build_flags : Type := {
  AES128 : bool;
  AES192 : bool;
  AES256 : bool;
  AES512 : bool
}.

(** aes.h defines all four macros to 1. *)
Definition aes_h : build_flags :=
  {| AES128 := true; AES192 := true; AES256 := true; AES512 := true |}.

Definition AES_BLOCKLEN : nat := 16.
Definition Nb : nat := 4.

(** The [#if] chain of aes.h: AES512 is tested first. *)
Definition AES_KEYLEN (f : build_flags) : nat :=
  if AES512 f then 64 else if AES256 f then 32 else if AES192 f then 24 else 16.
Definition Nr (f : build_flags) : nat :=
  if AES512 f then 22 else if AES256 f then 14 else if AES192 f then 12 else 10.
Definition AES_keyExpSize (f : build_flags) : nat :=
  if AES512 f then 368 else if AES256 f then 240 else if AES192 f then 208 else 176.

(** The [#if] chain of aes.c: AES256 is tested first, AES512 third. *)
Definition Nk (f : build_flags) : nat :=
  if AES256 f then 8 else if AES192 f then 6 else if AES512 f then 16 else 4.

Definition AES_GCM_TAG_LEN : nat := 16.
Definition AES_GCM_IV_LEN : nat := 12.

(** ** Tables *)

Local Open Scope Z_scope.

Definition sbox : list Z :=
  [ 0x63; 0x7c; 0x77; 0x7b; 0xf2; 0x6b; 0x6f; 0xc5; 0x30; 0x01; 0x67; 0x2b; 0xfe; 0xd7; 0xab; 0x76;
    0xca; 0x82; 0xc9; 0x7d; 0xfa; 0x59; 0x47; 0xf0; 0xad; 0xd4; 0xa2; 0xaf; 0x9c; 0xa4; 0x72; 0xc0;
    0xb7; 0xfd; 0x93; 0x26; 0x36; 0x3f; 0xf7; 0xcc; 0x34; 0xa5; 0xe5; 0xf1; 0x71; 0xd8; 0x31; 0x15;
    0x04; 0xc7; 0x23; 0xc3; 0x18; 0x96; 0x05; 0x9a; 0x07; 0x12; 0x80; 0xe2; 0xeb; 0x27; 0xb2; 0x75;
    0x09; 0x83; 0x2c; 0x1a; 0x1b; 0x6e; 0x5a; 0xa0; 0x52; 0x3b; 0xd6; 0xb3; 0x29; 0xe3; 0x2f; 0x84;
    0x53; 0xd1; 0x00; 0xed; 0x20; 0xfc; 0xb1; 0x5b; 0x6a; 0xcb; 0xbe; 0x39; 0x4a; 0x4c; 0x58; 0xcf;
    0xd0; 0xef; 0xaa; 0xfb; 0x43; 0x4d; 0x33; 0x85; 0x45; 0xf9; 0x02; 0x7f; 0x50; 0x3c; 0x9f; 0xa8;
    0x51; 0xa3; 0x40; 0x8f; 0x92; 0x9d; 0x38; 0xf5; 0xbc; 0xb6; 0xda; 0x21; 0x10; 0xff; 0xf3; 0xd2;
    0xcd; 0x0c; 0x13; 0xec; 0x5f; 0x97; 0x44; 0x17; 0xc4; 0xa7; 0x7e; 0x3d; 0x64; 0x5d; 0x19; 0x73;
    0x60; 0x81; 0x4f; 0xdc; 0x22; 0x2a; 0x90; 0x88; 0x46; 0xee; 0xb8; 0x14; 0xde; 0x5e; 0x0b; 0xdb;
    0xe0; 0x32; 0x3a; 0x0a; 0x49; 0x06; 0x24; 0x5c; 0xc2; 0xd3; 0xac; 0x62; 0x91; 0x95; 0xe4; 0x79;
    0xe7; 0xc8; 0x37; 0x6d; 0x8d; 0xd5; 0x4e; 0xa9; 0x6c; 0x56; 0xf4; 0xea; 0x65; 0x7a; 0xae; 0x08;
    0xba; 0x78; 0x25; 0x2e; 0x1c; 0xa6; 0xb4; 0xc6; 0xe8; 0xdd; 0x74; 0x1f; 0x4b; 0xbd; 0x8b; 0x8a;
    0x70; 0x3e; 0xb5; 0x66; 0x48; 0x03; 0xf6; 0x0e; 0x61; 0x35; 0x57; 0xb9; 0x86; 0xc1; 0x1d; 0x9e;
    0xe1; 0xf8; 0x98; 0x11; 0x69; 0xd9; 0x8e; 0x94; 0x9b; 0x1e; 0x87; 0xe9; 0xce; 0x55; 0x28; 0xdf;
    0x8c; 0xa1; 0x89; 0x0d; 0xbf; 0xe6; 0x42; 0x68; 0x41; 0x99; 0x2d; 0x0f; 0xb0; 0x54; 0xbb; 0x16 ].

(** [static const uint8_t Rcon[11]]: indices 0..10. *)
Definition Rcon : list Z :=
  [ 0x8d; 0x01; 0x02; 0x04; 0x08; 0x10; 0x20; 0x40; 0x80; 0x1b; 0x36 ].

(** The inverse S-box (aes.c, lines 98-116).  It is compiled out ([#if 0]),
    as are the inverse cipher steps below that read it; they are modelled
    because they are the code's own inverse of [Cipher]. *)
Definition rsbox : list Z :=
  [ 0x52; 0x09; 0x6a; 0xd5; 0x30; 0x36; 0xa5; 0x38; 0xbf; 0x40; 0xa3; 0x9e; 0x81; 0xf3; 0xd7; 0xfb;
    0x7c; 0xe3; 0x39; 0x82; 0x9b; 0x2f; 0xff; 0x87; 0x34; 0x8e; 0x43; 0x44; 0xc4; 0xde; 0xe9; 0xcb;
    0x54; 0x7b; 0x94; 0x32; 0xa6; 0xc2; 0x23; 0x3d; 0xee; 0x4c; 0x95; 0x0b; 0x42; 0xfa; 0xc3; 0x4e;
    0x08; 0x2e; 0xa1; 0x66; 0x28; 0xd9; 0x24; 0xb2; 0x76; 0x5b; 0xa2; 0x49; 0x6d; 0x8b; 0xd1; 0x25;
    0x72; 0xf8; 0xf6; 0x64; 0x86; 0x68; 0x98; 0x16; 0xd4; 0xa4; 0x5c; 0xcc; 0x5d; 0x65; 0xb6; 0x92;
    0x6c; 0x70; 0x48; 0x50; 0xfd; 0xed; 0xb9; 0xda; 0x5e; 0x15; 0x46; 0x57; 0xa7; 0x8d; 0x9d; 0x84;
    0x90; 0xd8; 0xab; 0x00; 0x8c; 0xbc; 0xd3; 0x0a; 0xf7; 0xe4; 0x58; 0x05; 0xb8; 0xb3; 0x45; 0x06;
    0xd0; 0x2c; 0x1e; 0x8f; 0xca; 0x3f; 0x0f; 0x02; 0xc1; 0xaf; 0xbd; 0x03; 0x01; 0x13; 0x8a; 0x6b;
    0x3a; 0x91; 0x11; 0x41; 0x4f; 0x67; 0xdc; 0xea; 0x97; 0xf2; 0xcf; 0xce; 0xf0; 0xb4; 0xe6; 0x73;
    0x96; 0xac; 0x74; 0x22; 0xe7; 0xad; 0x35; 0x85; 0xe2; 0xf9; 0x37; 0xe8; 0x1c; 0x75; 0xdf; 0x6e;
    0x47; 0xf1; 0x1a; 0x71; 0x1d; 0x29; 0xc5; 0x89; 0x6f; 0xb7; 0x62; 0x0e; 0xaa; 0x18; 0xbe; 0x1b;
    0xfc; 0x56; 0x3e; 0x4b; 0xc6; 0xd2; 0x79; 0x20; 0x9a; 0xdb; 0xc0; 0xfe; 0x78; 0xcd; 0x5a; 0xf4;
    0x1f; 0xdd; 0xa8; 0x33; 0x88; 0x07; 0xc7; 0x31; 0xb1; 0x12; 0x10; 0x59; 0x27; 0x80; 0xec; 0x5f;
    0x60; 0x51; 0x7f; 0xa9; 0x19; 0xb5; 0x4a; 0x0d; 0x2d; 0xe5; 0x7a; 0x9f; 0x93; 0xc9; 0x9c; 0xef;
    0xa0; 0xe0; 0x3b; 0x4d; 0xae; 0x2a; 0xf5; 0xb0; 0xc8; 0xeb; 0xbb; 0x3c; 0x83; 0x53; 0x99; 0x61;
    0x17; 0x2b; 0x04; 0x7e; 0xba; 0x77; 0xd6; 0x26; 0xe1; 0x69; 0x14; 0x63; 0x55; 0x21; 0x0c; 0x7d ].

Local Close Scope Z_scope.

Definition getSBoxValue (num : Z) : Z := peek sbox (Z.to_nat num).
Definition getSBoxInvert (num : Z) : Z := peek rsbox (Z.to_nat num).

(** ** Key schedule *)

Section KeySchedule.
Variable f : build_flags.

(** First loop of [KeyExpansion]: [for (i = 0; i < Nk; ++i)] copies four
    key bytes per word. *)
Definition KeyExpansion_copy (RoundKey Key : list Z) : list Z :=
  for_range 0 (Nk f) (fun i RoundKey =>
    let RoundKey := <[i * 4 + 0 := peek Key (i * 4 + 0)]> RoundKey in
    let RoundKey := <[i * 4 + 1 := peek Key (i * 4 + 1)]> RoundKey in
    let RoundKey := <[i * 4 + 2 := peek Key (i * 4 + 2)]> RoundKey in
    let RoundKey := <[i * 4 + 3 := peek Key (i * 4 + 3)]> RoundKey in
    RoundKey) RoundKey.

(** The index [i/Nk] read from [Rcon] when [i % Nk == 0]. *)
Definition Rcon_index (i : nat) : nat := (i / Nk f).

(** Body of the second loop for word index [i].  The read [Rcon[i/Nk]]
    is the only access whose index is not bounded by a loop guard; it is
    [None] when the index is outside the 11-entry table. *)
Definition KeyExpansion_word (i : nat) (RoundKey : list Z) : option (list Z) :=
  let k := ((i - 1) * 4) in
  let '(t0, t1, t2, t3) :=
    (peek RoundKey (k + 0), peek RoundKey (k + 1), peek RoundKey (k + 2), peek RoundKey (k + 3)) in
  tempa ←
    (if (i mod Nk f =? 0) then
       (* RotWord *)
       let '(t0, t1, t2, t3) := (t1, t2, t3, t0) in
       (* SubWord *)
       let '(t0, t1, t2, t3) :=
         (getSBoxValue t0, getSBoxValue t1, getSBoxValue t2, getSBoxValue t3) in
       rc ← Rcon !! Rcon_index i;
       Some (Z.lxor t0 rc, t1, t2, t3)
     else Some (t0, t1, t2, t3));
  let '(t0, t1, t2, t3) := tempa in
  let '(t0, t1, t2, t3) :=
    if (6 <? Nk f) && (i mod Nk f =? 4) then
      (getSBoxValue t0, getSBoxValue t1, getSBoxValue t2, getSBoxValue t3)
    else (t0, t1, t2, t3) in
  let j := (i * 4) in
  let k := ((i - Nk f) * 4) in
  let RoundKey := <[j + 0 := Z.lxor (peek RoundKey (k + 0)) t0]> RoundKey in
  let RoundKey := <[j + 1 := Z.lxor (peek RoundKey (k + 1)) t1]> RoundKey in
  let RoundKey := <[j + 2 := Z.lxor (peek RoundKey (k + 2)) t2]> RoundKey in
  let RoundKey := <[j + 3 := Z.lxor (peek RoundKey (k + 3)) t3]> RoundKey in
  Some RoundKey.

(** [for (i = lo; i < lo + n; ++i)] over the fallible body. *)
Fixpoint KeyExpansion_words (n lo : nat) (RoundKey : list Z) : option (list Z) :=
  match n with
  | O => Some RoundKey
  | S n' => RoundKey ← KeyExpansion_word lo RoundKey; KeyExpansion_words n' (S lo) RoundKey
  end.

Definition KeyExpansion (RoundKey Key : list Z) : option (list Z) :=
  let RoundKey := KeyExpansion_copy RoundKey Key in
  KeyExpansion_words (Nb * (Nr f + 1) - Nk f) (Nk f) RoundKey.

(** [ctx->RoundKey] is [AES_keyExpSize] bytes, uninitialised before the
    call; [RoundKey0] is whatever it holds. *)
Definition AES_init_ctx (RoundKey0 key : list Z) : option (list Z) :=
  KeyExpansion RoundKey0 key.
End KeySchedule.

(** ** Block cipher *)

(** [state_t] is [uint8_t[4][4]] laid over a 16-byte buffer:
    element [i][j] of the state is byte [4*i + j]. *)
Definition st_get (state : list Z) (i j : nat) : Z := peek state (4 * i + j).
Definition st_set (state : list Z) (i j : nat) (v : Z) : list Z := <[4 * i + j := v]> state.

Definition AddRoundKey (round : nat) (state RoundKey : list Z) : list Z :=
  for_range 0 4 (fun i state =>
    for_range 0 4 (fun j state =>
      st_set state i j
        (Z.lxor (st_get state i j) (peek RoundKey (round * Nb * 4 + i * Nb + j)))) state) state.

Definition SubBytes (state : list Z) : list Z :=
  for_range 0 4 (fun i state =>
    for_range 0 4 (fun j state =>
      st_set state j i (getSBoxValue (st_get state j i))) state) state.

Definition ShiftRows (state : list Z) : list Z :=
  (* Rotate first row 1 columns to left *)
  let temp := st_get state 0 1 in
  let state := st_set state 0 1 (st_get state 1 1) in
  let state := st_set state 1 1 (st_get state 2 1) in
  let state := st_set state 2 1 (st_get state 3 1) in
  let state := st_set state 3 1 temp in
  (* Rotate second row 2 columns to left *)
  let temp := st_get state 0 2 in
  let state := st_set state 0 2 (st_get state 2 2) in
  let state := st_set state 2 2 temp in
  let temp := st_get state 1 2 in
  let state := st_set state 1 2 (st_get state 3 2) in
  let state := st_set state 3 2 temp in
  (* Rotate third row 3 columns to left *)
  let temp := st_get state 0 3 in
  let state := st_set state 0 3 (st_get state 3 3) in
  let state := st_set state 3 3 (st_get state 2 3) in
  let state := st_set state 2 3 (st_get state 1 3) in
  let state := st_set state 1 3 temp in
  state.

Definition xtime (x : Z) : Z :=
  u8 (Z.lxor (Z.shiftl x 1) (Z.land (Z.shiftr x 7) 1 * 0x1b)).

Definition MixColumns (state : list Z) : list Z :=
  for_range 0 4 (fun i state =>
    let t := st_get state i 0 in
    let Tmp := Z.lxor (Z.lxor (Z.lxor (st_get state i 0) (st_get state i 1)) (st_get state i 2))
                      (st_get state i 3) in
    let Tm := xtime (Z.lxor (st_get state i 0) (st_get state i 1)) in
    let state := st_set state i 0 (Z.lxor (st_get state i 0) (Z.lxor Tm Tmp)) in
    let Tm := xtime (Z.lxor (st_get state i 1) (st_get state i 2)) in
    let state := st_set state i 1 (Z.lxor (st_get state i 1) (Z.lxor Tm Tmp)) in
    let Tm := xtime (Z.lxor (st_get state i 2) (st_get state i 3)) in
    let state := st_set state i 2 (Z.lxor (st_get state i 2) (Z.lxor Tm Tmp)) in
    let Tm := xtime (Z.lxor (st_get state i 3) t) in
    let state := st_set state i 3 (Z.lxor (st_get state i 3) (Z.lxor Tm Tmp)) in
    state) state.

(** The macro [Multiply] and the inverse steps (aes.c, lines 315-410; the
    steps are compiled out).  The operands are bytes, so that no
    intermediate value of [Multiply] leaves the range of [uint8_t]. *)
Definition Multiply (x y : Z) : Z :=
  Z.lxor (Z.lxor (Z.lxor (Z.lxor
    (Z.land y 1 * x)
    (Z.land (Z.shiftr y 1) 1 * xtime x))
    (Z.land (Z.shiftr y 2) 1 * xtime (xtime x)))
    (Z.land (Z.shiftr y 3) 1 * xtime (xtime (xtime x))))
    (Z.land (Z.shiftr y 4) 1 * xtime (xtime (xtime (xtime x)))).

Definition InvMixColumns (state : list Z) : list Z :=
  for_range 0 4 (fun i state =>
    let a := st_get state i 0 in
    let b := st_get state i 1 in
    let c := st_get state i 2 in
    let d := st_get state i 3 in
    let state := st_set state i 0
      (Z.lxor (Z.lxor (Z.lxor (Multiply a 0x0e) (Multiply b 0x0b)) (Multiply c 0x0d))
              (Multiply d 0x09)) in
    let state := st_set state i 1
      (Z.lxor (Z.lxor (Z.lxor (Multiply a 0x09) (Multiply b 0x0e)) (Multiply c 0x0b))
              (Multiply d 0x0d)) in
    let state := st_set state i 2
      (Z.lxor (Z.lxor (Z.lxor (Multiply a 0x0d) (Multiply b 0x09)) (Multiply c 0x0e))
              (Multiply d 0x0b)) in
    let state := st_set state i 3
      (Z.lxor (Z.lxor (Z.lxor (Multiply a 0x0b) (Multiply b 0x0d)) (Multiply c 0x09))
              (Multiply d 0x0e)) in
    state) state.

Definition InvSubBytes (state : list Z) : list Z :=
  for_range 0 4 (fun i state =>
    for_range 0 4 (fun j state =>
      st_set state j i (getSBoxInvert (st_get state j i))) state) state.

Definition InvShiftRows (state : list Z) : list Z :=
  (* Rotate first row 1 columns to right *)
  let temp := st_get state 3 1 in
  let state := st_set state 3 1 (st_get state 2 1) in
  let state := st_set state 2 1 (st_get state 1 1) in
  let state := st_set state 1 1 (st_get state 0 1) in
  let state := st_set state 0 1 temp in
  (* Rotate second row 2 columns to right *)
  let temp := st_get state 0 2 in
  let state := st_set state 0 2 (st_get state 2 2) in
  let state := st_set state 2 2 temp in
  let temp := st_get state 1 2 in
  let state := st_set state 1 2 (st_get state 3 2) in
  let state := st_set state 3 2 temp in
  (* Rotate third row 3 columns to right *)
  let temp := st_get state 0 3 in
  let state := st_set state 0 3 (st_get state 1 3) in
  let state := st_set state 1 3 (st_get state 2 3) in
  let state := st_set state 2 3 (st_get state 3 3) in
  let state := st_set state 3 3 temp in
  state.

Section Cipher.
Variable f : build_flags.

(** The loop [for (round = 1; ; ++round)] of [Cipher]; [k] is the number
    of rounds left before [round == Nr]. *)
Fixpoint Cipher_rounds (k round : nat) (state RoundKey : list Z) : list Z :=
  let state := SubBytes state in
  let state := ShiftRows state in
  match k with
  | O => state
  | S k' =>
      let state := MixColumns state in
      let state := AddRoundKey round state RoundKey in
      Cipher_rounds k' (S round) state RoundKey
  end.

Definition Cipher (state RoundKey : list Z) : list Z :=
  let state := AddRoundKey 0 state RoundKey in
  let state := Cipher_rounds (Nr f - 1) 1 state RoundKey in
  AddRoundKey (Nr f) state RoundKey.
End Cipher.

(** [InvCipher] (aes.c, lines 481-507; compiled out). *)
Section InvCipher.
Variable f : build_flags.

(** The loop [for (round = (Nr - 1); ; --round)] of [InvCipher]. *)
Fixpoint InvCipher_rounds (round : nat) (state RoundKey : list Z) : list Z :=
  let state := InvShiftRows state in
  let state := InvSubBytes state in
  let state := AddRoundKey round state RoundKey in
  match round with
  | O => state
  | S round' => InvCipher_rounds round' (InvMixColumns state) RoundKey
  end.

Definition InvCipher (state RoundKey : list Z) : list Z :=
  let state := AddRoundKey (Nr f) state RoundKey in
  InvCipher_rounds (Nr f - 1) state RoundKey.
End InvCipher.

(** ** Counter mode *)

(** [for (bi = 15; bi >= 12; --bi) if (++counter[bi] != 0) break;]
    with [n] the number of bytes still to visit. *)
Fixpoint increment_tail (n bi : nat) (counter : list Z) : list Z :=
  match n with
  | O => counter
  | S n' =>
      let v := u8 (peek counter bi + 1) in
      let counter := <[bi := v]> counter in
      if (v =? 0)%Z then increment_tail n' (bi - 1) counter else counter
  end.

Definition increment_counter_j0 (counter : list Z) : list Z :=
  increment_tail 4 (AES_BLOCKLEN - 1) counter.

Section CTR.
Variable f : build_flags.

(** The body of the loop of [AES_CTR_xcrypt_buffer], run over the bytes
    [buf[i]], [i < length], in order; each iteration touches [buf[i]]
    only.  Returns the counter block and the new bytes. *)
Fixpoint CTR_loop (RoundKey bytes : list Z) (bi : nat) (counter buffer : list Z)
    : list Z * list Z :=
  match bytes with
  | [] => (counter, [])
  | b :: rest =>
      let '(counter, buffer, bi) :=
        if bi =? AES_BLOCKLEN then
          let buffer := Cipher f buffer RoundKey in
          let counter := increment_tail 4 (AES_BLOCKLEN - 1) counter in
          let buffer := memcpy buffer counter AES_BLOCKLEN in
          (counter, buffer, 0)
        else (counter, buffer, bi) in
      let b := Z.lxor b (peek buffer bi) in
      let '(counter, rest) := CTR_loop RoundKey rest (S bi) counter buffer in
      (counter, b :: rest)
  end.

Definition AES_CTR_xcrypt_buffer (RoundKey current_counter_block buf : list Z) (length : nat)
    : list Z * list Z :=
  let buffer := memcpy (zeros AES_BLOCKLEN) current_counter_block AES_BLOCKLEN in
  let '(current_counter_block, bytes) :=
    CTR_loop RoundKey (take length buf) AES_BLOCKLEN current_counter_block buffer in
  (current_counter_block, bytes ++ drop length buf).
End CTR.

(** ** GHASH *)

Definition GCM_POLYNOMIAL : Z := 0xE1.

(** The 16-byte arrays that [ghash_gmul] receives by address live in a
    store keyed by array; passing the same key twice is passing the same
    array twice. *)
Abbreviation store := (gmap string (list Z)).

(** Body of [for (k = 15; k >= 0; --k)]: byte [k] of [V] is shifted right
    and receives the low bit of byte [k - 1], which has not been shifted
    yet. *)
Definition shift_byte_step (V : list Z) (k : nat) : list Z :=
  let V := <[k := Z.shiftr (peek V k) 1]> V in
  if (0 <? k) && negb (Z.land (peek V (k - 1)) 1 =? 0)%Z
  then <[k := Z.lor (peek V k) 0x80]> V else V.

(** The right shift of [V] by one bit: the loop over [k = 15, 14, .., 0]. *)
Definition shift_right_V (V : list Z) : list Z :=
  fold_left shift_byte_step (rev (seq 0 16)) V.

(** The update of [V] at the end of each bit iteration. *)
Definition step_V (V : list Z) : list Z :=
  let lsb_set := Z.land (peek V 15) 1 in
  let V := shift_right_V V in
  if negb (lsb_set =? 0)%Z then <[0 := Z.lxor (peek V 0) GCM_POLYNOMIAL]> V else V.

(** [ghash_gmul(x, y, res)]: [x[i]] is read from the store at every bit
    iteration, after [res] has been cleared and while it is being
    accumulated. *)
Definition ghash_gmul (x y res : string) (m : store) : store :=
  let m := <[res := memset (m !!! res) 0 16]> m in
  let V := memcpy (zeros 16) (m !!! y) 16 in
  fst (for_range 0 16 (fun i mV =>
         for_range 0 8 (fun j '(m, V) =>
           let m := if negb (Z.land (Z.shiftr (peek (m !!! x) i) (7 - Z.of_nat j)) 1 =? 0)%Z
                    then <[res := xor16 (m !!! res) V 0]> m else m in
           (m, step_V V)) mV) (m, V)).

(** [ghash_update(S, H, data, len)].  The first loop,
    [for (i = 0; i + 16 <= len; i += 16)], runs [len / 16] times with
    [i = 16 * b]. *)
Definition ghash_update (S H : string) (data : list Z) (len : nat) (m : store) : store :=
  let m := for_range 0 (len / AES_BLOCKLEN) (fun b m =>
             let i := b * AES_BLOCKLEN in
             let m := <[S := xor16 (m !!! S) data i]> m in
             ghash_gmul S H S m) m in
  let i := (len / AES_BLOCKLEN) * AES_BLOCKLEN in
  if i <? len then
    let remaining := len - i in
    let block := map (fun k => peek data (i + k)) (seq 0 remaining)
                 ++ replicate (AES_BLOCKLEN - remaining) 0%Z in
    let m := <[S := xor16 (m !!! S) block 0]> m in
    ghash_gmul S H S m
  else m.

(** [encode_length(len_bits, block)]: the eight stores it performs, as
    (index from [block], byte). *)
Definition encode_length (len_bits : Z) : list (nat * Z) :=
  [ (8,  u8 (Z.shiftr len_bits 56));
    (9,  u8 (Z.shiftr len_bits 48));
    (10, u8 (Z.shiftr len_bits 40));
    (11, u8 (Z.shiftr len_bits 32));
    (12, u8 (Z.shiftr len_bits 24));
    (13, u8 (Z.shiftr len_bits 16));
    (14, u8 (Z.shiftr len_bits 8));
    (15, u8 len_bits) ].

(** Stores through a pointer [a + off] into the array [a].  A store past
    the extent of [a] is undefined in C; the model leaves every modelled
    array as it is ([<[_:=_]>] outside the list), and [stores_in_bounds]
    tells whether that happened. *)
Definition stores_at (a : list Z) (off : nat) (sts : list (nat * Z)) : list Z :=
  fold_left (fun a '(i, v) => <[off + i := v]> a) sts a.
Definition stores_in_bounds (a : list Z) (off : nat) (sts : list (nat * Z)) : bool :=
  forallb (fun '(i, _) => off + i <? length a) sts.

Definition constant_time_memcmp (a b : list Z) (num : nat) : Z :=
  let result := for_range 0 num (fun i result =>
                  Z.lor result (Z.lxor (peek a i) (peek b i))) 0%Z in
  if (result =? 0)%Z then 0%Z else 1%Z.

(** ** GCM *)

(** A pointer argument: NULL, or the array it points to. *)
Definition ptr : Type := option (list Z).
Definition is_null (p : ptr) : bool := if p is None then true else false.
Definition deref (p : ptr) : list Z := default [] p.

Record AES_ctx : Type := { RoundKey : list Z; Iv : list Z }.

(** The length blocks, as the two functions build them from a zeroed
    16-byte local. *)
Definition iv_len_block (iv_len : nat) : list Z :=
  let len_block := zeros 16 in
  let iv_len_bits := u64 (Z.of_nat iv_len * 8) in
  stores_at len_block 8 (encode_length iv_len_bits).

Definition final_len_block (aad_len text_len : nat) : list Z :=
  let final_len_block := zeros 16 in
  let final_len_block := stores_at final_len_block 0 (encode_length (u64 (Z.of_nat aad_len * 8))) in
  let final_len_block := stores_at final_len_block 8 (encode_length (u64 (Z.of_nat text_len * 8))) in
  final_len_block.

(** Return values of the two entry points. *)
Definition Success : Z := 0%Z.
Definition InvalidArgument : Z := (-1)%Z.
Definition AuthenticationFailed : Z := (-3)%Z.

Section GCM.
Variable f : build_flags.

(** Steps 1 and 2 of both entry points (the same statements in each):
    [H], then [J0].  [H] and [GCM_S] are the two local arrays handed to
    [ghash_update]; they are kept in the store [m].  Locals declared
    without initialiser are overwritten in full before any read. *)
Definition gcm_H_J0 (ctx : AES_ctx) (iv : list Z) (iv_len : nat) : list Z * store :=
  let m : store := <["GCM_S" := zeros 16]> (<["H" := zeros 16]> ∅) in
  let m := <["H" := Cipher f (m !!! "H") (RoundKey ctx)]> m in
  if iv_len =? AES_GCM_IV_LEN then
    let J0 := memcpy (zeros 16) iv iv_len in
    let J0 := take iv_len J0 ++ memset (drop iv_len J0) 0 (AES_BLOCKLEN - iv_len - 1) in
    let J0 := <[AES_BLOCKLEN - 1 := 1%Z]> J0 in
    (J0, m)
  else
    let len_block := iv_len_block iv_len in
    let m := <["GCM_S" := memset (m !!! "GCM_S") 0 16]> m in
    let m := ghash_update "GCM_S" "H" iv iv_len m in
    let m := ghash_update "GCM_S" "H" len_block 16 m in
    let J0 := memcpy (zeros 16) (m !!! "GCM_S") 16 in
    let m := <["GCM_S" := memset (m !!! "GCM_S") 0 16]> m in
    (J0, m).

(** [tag[i] = GCM_S[i] ^ EK0[i]] for [i < AES_GCM_TAG_LEN]. *)
Definition xor_tag (GCM_S EK0 : list Z) : list Z :=
  map (fun i => Z.lxor (peek GCM_S i) (peek EK0 i)) (seq 0 AES_GCM_TAG_LEN).

(** Result: return value, the [ct] buffer, the [tag] buffer. *)
Definition AES_GCM_encrypt (ctx : AES_ctx)
    (iv : ptr) (iv_len : nat) (aad : ptr) (aad_len : nat)
    (pt ct : ptr) (pt_len : nat) (tag : ptr) : Z * ptr * ptr :=
  if (iv_len =? 0) || (is_null aad && (0 <? aad_len)) || (is_null pt && (0 <? pt_len))
     || is_null ct || is_null tag
  then (InvalidArgument, ct, tag)
  else
    let '(J0, m) := gcm_H_J0 ctx (deref iv) iv_len in
    let EK0 := memcpy (zeros 16) J0 AES_BLOCKLEN in
    let EK0 := Cipher f EK0 (RoundKey ctx) in
    let m := ghash_update "GCM_S" "H" (deref aad) aad_len m in
    let current_counter := memcpy (zeros 16) J0 AES_BLOCKLEN in
    let current_counter := increment_counter_j0 current_counter in
    let ct_buf :=
      if 0 <? pt_len then
        let ct_buf := memcpy (deref ct) (deref pt) pt_len in
        snd (AES_CTR_xcrypt_buffer f (RoundKey ctx) current_counter ct_buf pt_len)
      else deref ct in
    let m := ghash_update "GCM_S" "H" ct_buf pt_len m in
    let m := ghash_update "GCM_S" "H" (final_len_block aad_len pt_len) 16 m in
    let tag_buf := xor_tag (m !!! "GCM_S") EK0 ++ drop AES_GCM_TAG_LEN (deref tag) in
    (Success, Some ct_buf, Some tag_buf).

(** Result of [AES_GCM_decrypt]: return value, the [pt] buffer, and the
    contents of the [pt] buffer after each statement that stores into it,
    in order. *)
Record decrypt_result : Type := {
  dec_rc : Z;
  dec_pt : ptr;
  dec_pt_stores : list (list Z)
}.

Definition AES_GCM_decrypt (ctx : AES_ctx)
    (iv : ptr) (iv_len : nat) (aad : ptr) (aad_len : nat)
    (ct pt : ptr) (ct_len : nat) (tag : ptr) : decrypt_result :=
  if (iv_len =? 0) || (is_null aad && (0 <? aad_len)) || (is_null ct && (0 <? ct_len))
     || is_null pt || is_null tag
  then {| dec_rc := InvalidArgument; dec_pt := pt; dec_pt_stores := [] |}
  else
    let '(J0, m) := gcm_H_J0 ctx (deref iv) iv_len in
    let EK0 := memcpy (zeros 16) J0 AES_BLOCKLEN in
    let EK0 := Cipher f EK0 (RoundKey ctx) in
    let m := ghash_update "GCM_S" "H" (deref aad) aad_len m in
    let m := ghash_update "GCM_S" "H" (deref ct) ct_len m in
    let m := ghash_update "GCM_S" "H" (final_len_block aad_len ct_len) 16 m in
    let calculated_tag := xor_tag (m !!! "GCM_S") EK0 in
    if negb (constant_time_memcmp calculated_tag (deref tag) AES_GCM_TAG_LEN =? 0)%Z then
      let pt_buf := memset (deref pt) 0 ct_len in
      {| dec_rc := AuthenticationFailed; dec_pt := Some pt_buf; dec_pt_stores := [pt_buf] |}
    else
      let current_counter := memcpy (zeros 16) J0 AES_BLOCKLEN in
      let current_counter := increment_counter_j0 current_counter in
      if 0 <? ct_len then
        let pt_copy := memcpy (deref pt) (deref ct) ct_len in
        let pt_buf := snd (AES_CTR_xcrypt_buffer f (RoundKey ctx) current_counter pt_copy ct_len) in
        {| dec_rc := Success; dec_pt := Some pt_buf; dec_pt_stores := [pt_copy; pt_buf] |}
      else {| dec_rc := Success; dec_pt := pt; dec_pt_stores := [] |}.
End GCM.

(** ** The specification's reference algorithms

    These follow the text of the specification (sections 4.3 to 4.6), not
    the C code, and are what the code is compared against. *)
Module Spec.

(** Section 4.3, step 2: the right shift of the 128-bit register by one
    bit ([V[15]] receives the carry from [V[14]], and so on). *)
Definition shift_right (V : list Z) : list Z :=
  map (fun k =>
    Z.lor (Z.shiftr (peek V k) 1)
          (if 0 <? k then Z.shiftl (Z.land (peek V (k - 1)) 1) 7 else 0%Z)) (seq 0 16).

(** Section 4.3: the bit-serial multiplication in GF(2^128). *)
Definition GF_mul (x y : list Z) : list Z :=
  fst (for_range 0 16 (fun i ZV =>
         for_range 0 8 (fun j '(Zacc, V) =>
           let Zacc := if Z.testbit (peek x i) (7 - Z.of_nat j) then xor16 Zacc V 0 else Zacc in
           let lsb := Z.land (peek V 15) 1 in
           let V := shift_right V in
           let V := if (lsb =? 1)%Z then <[0 := Z.lxor (peek V 0) 0xE1]> V else V in
           (Zacc, V)) ZV) (zeros 16, y)).

(** Section 4.4: block [b] of [D] (of length [L]), zero-padded on the
    right to 16 bytes. *)
Definition block (D : list Z) (L b : nat) : list Z :=
  take 16 (drop (16 * b) (take L D) ++ zeros 16).

(** Section 4.4: for each block [B_i], [S <- GF_mul(S XOR B_i, H)]. *)
Definition ghash_update (S H D : list Z) (L : nat) : list Z :=
  fold_left (fun S b => GF_mul (xor16 S (block D L b) 0) H) (seq 0 ((L + 15) / 16)) S.

(** The 8-byte big-endian encoding of a 64-bit integer. *)
Definition be64 (n : Z) : list Z :=
  map (fun k => u8 (Z.shiftr n (8 * (7 - Z.of_nat k)))) (seq 0 8).

(** Section 4.6.2, step 5: the length block. *)
Definition length_block (aad_len text_len : nat) : list Z :=
  be64 (Z.of_nat aad_len * 8) ++ be64 (Z.of_nat text_len * 8).

(** Section 4.6.1: [J0] for an IV that is not 12 bytes long. *)
Definition J0_ghash (H IV : list Z) (iv_len : nat) : list Z :=
  ghash_update (ghash_update (zeros 16) H IV iv_len) H
               (zeros 8 ++ be64 (Z.of_nat iv_len * 8)) 16.

(** Section 3, counter register: the rightmost 4 bytes as a big-endian
    32-bit integer, advanced by [n] modulo 2^32; the leftmost 12 bytes
    fixed. *)
Definition be32 (b : list Z) : Z :=
  (peek b 0 * 2 ^ 24 + peek b 1 * 2 ^ 16 + peek b 2 * 2 ^ 8 + peek b 3)%Z.
Definition counter_add (C : list Z) (n : Z) : list Z :=
  let v := ((be32 (drop 12 C) + n) mod 2 ^ 32)%Z in
  take 12 C ++ [u8 (Z.shiftr v 24); u8 (Z.shiftr v 16); u8 (Z.shiftr v 8); u8 v].

(** Section 4.5: byte [i] of the buffer is XORed with byte [i mod 16] of
    the encryption of the counter block of block [i / 16]. *)
Definition CTR_xcrypt (f : build_flags) (K C B : list Z) (L : nat) : list Z :=
  map (fun i =>
    Z.lxor (peek B i) (peek (Cipher f (counter_add C (Z.of_nat (i / 16))) K) (i mod 16)))
    (seq 0 L) ++ drop L B.
End Spec.

(** * Vocabulary of the statements *)

(** A pointer is valid for [n] bytes. *)
Definition valid_buf (p : ptr) (n : nat) : Prop :=
  match p with
  | Some a => n <= length a
  | None => n = 0
  end.

(** A counter block: 16 bytes. *)
Definition counter_block (C : list Z) : Prop := length C = 16 /\ Forall is_byte C.

(** The counter block after [n] increments. *)
Definition counter_after (n : nat) (C : list Z) : list Z :=
  Nat.iter n (increment_tail 4 (AES_BLOCKLEN - 1)) C.

(** Byte [k] of the register shifted right by one bit. *)
Definition shifted_byte (V : list Z) (k : nat) : Z :=
  Z.lor (Z.shiftr (peek V k) 1)
        (if 0 <? k then Z.shiftl (Z.land (peek V (k - 1)) 1) 7 else 0%Z).

(** Byte [i] of [a] with bit [bit] flipped. *)
Definition flip_bit (a : list Z) (i bit : nat) : list Z :=
  <[i := Z.lxor (peek a i) (2 ^ Z.of_nat bit)]> a.

(** A build in which [Nk] words make up the key. *)
Definition consistent (f : build_flags) : Prop := Nk f * 4 = AES_KEYLEN f.

(** The argument check of the two functions; [inp] is the text read
    ([pt] of encrypt, [ct] of decrypt), [outp] the buffer written. *)
Definition arg_check (iv_len : nat) (aad : ptr) (aad_len : nat)
    (inp outp : ptr) (text_len : nat) (tag : ptr) : bool :=
  (iv_len =? 0) || (is_null aad && (0 <? aad_len)) || (is_null inp && (0 <? text_len))
  || is_null outp || is_null tag.

(** What that check rejects. *)
Definition rejected (iv_len : nat) (aad : ptr) (aad_len : nat) (inp outp : ptr)
    (text_len : nat) (tag : ptr) : Prop :=
  iv_len = 0 \/ (aad = None /\ 0 < aad_len) \/ (inp = None /\ 0 < text_len)
  \/ outp = None \/ tag = None.

(** The condition as C9 words it: a zero IV length, or a buffer pointer
    that is null while the length that goes with it is positive (the tag's
    length is the fixed [AES_GCM_TAG_LEN]). *)
Definition null_with_length (p : ptr) (n : nat) : Prop := p = None /\ 0 < n.

Definition stated_invalid (iv : ptr) (iv_len : nat) (aad : ptr) (aad_len : nat)
    (inp outp : ptr) (text_len : nat) (tag : ptr) : Prop :=
  iv_len = 0 \/ null_with_length iv iv_len \/ null_with_length aad aad_len
  \/ null_with_length inp text_len \/ null_with_length outp text_len
  \/ null_with_length tag AES_GCM_TAG_LEN.

Section Steps.
Variable f : build_flags.

(** The bytes [AES_CTR_xcrypt_buffer] produces for the first [length]
    bytes of the buffer. *)
Definition CTR_bytes (RK counter bytes : list Z) : list Z :=
  snd (CTR_loop f RK bytes AES_BLOCKLEN counter (memcpy (zeros AES_BLOCKLEN) counter AES_BLOCKLEN)).

Variable ctx : AES_ctx.

Definition gcm_J0 (iv : list Z) (iv_len : nat) : list Z := fst (gcm_H_J0 f ctx iv iv_len).

Definition gcm_EK0 (iv : list Z) (iv_len : nat) : list Z :=
  Cipher f (memcpy (zeros 16) (gcm_J0 iv iv_len) AES_BLOCKLEN) (RoundKey ctx).

Definition gcm_counter (iv : list Z) (iv_len : nat) : list Z :=
  increment_counter_j0 (memcpy (zeros 16) (gcm_J0 iv iv_len) AES_BLOCKLEN).

(** The GHASH accumulator after the AAD, the text and the length block. *)
Definition gcm_S (iv : list Z) (iv_len : nat) (aad : list Z) (aad_len : nat)
    (text : list Z) (text_len : nat) : list Z :=
  let m := snd (gcm_H_J0 f ctx iv iv_len) in
  let m := ghash_update "GCM_S" "H" aad aad_len m in
  let m := ghash_update "GCM_S" "H" text text_len m in
  let m := ghash_update "GCM_S" "H" (final_len_block aad_len text_len) 16 m in
  m !!! "GCM_S".

Definition gcm_tag (iv : list Z) (iv_len : nat) (aad : list Z) (aad_len : nat)
    (text : list Z) (text_len : nat) : list Z :=
  xor_tag (gcm_S iv iv_len aad aad_len text text_len) (gcm_EK0 iv iv_len).

Definition encrypt_ct (iv : list Z) (iv_len : nat) (pt ct : list Z) (pt_len : nat) : list Z :=
  if 0 <? pt_len then
    CTR_bytes (RoundKey ctx) (gcm_counter iv iv_len) (take pt_len (memcpy ct pt pt_len))
    ++ drop pt_len (memcpy ct pt pt_len)
  else ct.
End Steps.

(** ** Vocabulary of the further properties *)

(** A block of 16 bytes. *)
Definition byte_block (s : list Z) : Prop := length s = 16 /\ Forall is_byte s.

(** The test [0 <= b < 256], as a boolean. *)
Definition is_byteb (b : Z) : bool := (0 <=? b)%Z && (b <? 256)%Z.

(** What [MixColumns] and [InvMixColumns] store in one column [a b c d]. *)
Definition mix_column (a b c d : Z) : list Z :=
  [ Z.lxor a (Z.lxor (xtime (Z.lxor a b)) (Z.lxor (Z.lxor (Z.lxor a b) c) d));
    Z.lxor b (Z.lxor (xtime (Z.lxor b c)) (Z.lxor (Z.lxor (Z.lxor a b) c) d));
    Z.lxor c (Z.lxor (xtime (Z.lxor c d)) (Z.lxor (Z.lxor (Z.lxor a b) c) d));
    Z.lxor d (Z.lxor (xtime (Z.lxor d a)) (Z.lxor (Z.lxor (Z.lxor a b) c) d)) ].

Definition inv_mix_column (a b c d : Z) : list Z :=
  [ Z.lxor (Z.lxor (Z.lxor (Multiply a 0x0e) (Multiply b 0x0b)) (Multiply c 0x0d)) (Multiply d 0x09);
    Z.lxor (Z.lxor (Z.lxor (Multiply a 0x09) (Multiply b 0x0e)) (Multiply c 0x0b)) (Multiply d 0x0d);
    Z.lxor (Z.lxor (Z.lxor (Multiply a 0x0d) (Multiply b 0x09)) (Multiply c 0x0e)) (Multiply d 0x0b);
    Z.lxor (Z.lxor (Z.lxor (Multiply a 0x0b) (Multiply b 0x0d)) (Multiply c 0x09)) (Multiply d 0x0e) ].

(** Multiplication by 2 and by 3 in GF(2^8), over [xtime]. *)
Definition gf_mul2 (x : Z) : Z := xtime x.
Definition gf_mul3 (x : Z) : Z := Z.lxor (xtime x) x.

(** The big-endian value of a list of bytes. *)
Definition be_value (bytes : list Z) : Z := fold_left (fun acc b => (acc * 256 + b)%Z) bytes 0%Z.


(** The four bytes that the second loop of [KeyExpansion] stores for word
    [i]. *)
Definition KeyExpansion_word_bytes (f : build_flags) (i : nat) (RoundKey : list Z)
    : option (Z * Z * Z * Z) :=
  let k := ((i - 1) * 4) in
  let '(t0, t1, t2, t3) :=
    (peek RoundKey (k + 0), peek RoundKey (k + 1), peek RoundKey (k + 2), peek RoundKey (k + 3)) in
  tempa ←
    (if (i mod Nk f =? 0) then
       let '(t0, t1, t2, t3) := (t1, t2, t3, t0) in
       let '(t0, t1, t2, t3) :=
         (getSBoxValue t0, getSBoxValue t1, getSBoxValue t2, getSBoxValue t3) in
       rc ← Rcon !! Rcon_index f i;
       Some (Z.lxor t0 rc, t1, t2, t3)
     else Some (t0, t1, t2, t3));
  let '(t0, t1, t2, t3) := tempa in
  let '(t0, t1, t2, t3) :=
    if (6 <? Nk f) && (i mod Nk f =? 4) then
      (getSBoxValue t0, getSBoxValue t1, getSBoxValue t2, getSBoxValue t3)
    else (t0, t1, t2, t3) in
  let k := ((i - Nk f) * 4) in
  Some (Z.lxor (peek RoundKey (k + 0)) t0, Z.lxor (peek RoundKey (k + 1)) t1,
        Z.lxor (peek RoundKey (k + 2)) t2, Z.lxor (peek RoundKey (k + 3)) t3).

Definition store_word (i : nat) (w : Z * Z * Z * Z) (RoundKey : list Z) : list Z :=
  let '(b0, b1, b2, b3) := w in
  <[i * 4 + 3 := b3]> (<[i * 4 + 2 := b2]> (<[i * 4 + 1 := b1]> (<[i * 4 + 0 := b0]> RoundKey))).

(** ** Key schedule *)

(** ** Inputs of the worked examples *)

Definition bytes_from (lo n : nat) : list Z := map Z.of_nat (seq lo n).

(** A context whose round keys are all zero, and one with a non-uniform
    schedule. *)
Definition ctx_zero : AES_ctx := {| RoundKey := zeros 368; Iv := zeros 16 |}.
Definition ctx_ramp : AES_ctx :=
  {| RoundKey := map (fun i => Z.of_nat (i mod 256)) (seq 0 368); Iv := zeros 16 |}.

(** Builds with a single key size enabled. *)
Definition aes128_only : build_flags :=
  {| AES128 := true; AES192 := false; AES256 := false; AES512 := false |}.
Definition aes512_only : build_flags :=
  {| AES128 := false; AES192 := false; AES256 := false; AES512 := true |}.

Local Open Scope Z_scope.

(** FIPS-197, appendix B: key, plaintext, ciphertext, last round key. *)
Definition fips_key : list Z :=
  [0x2b; 0x7e; 0x15; 0x16; 0x28; 0xae; 0xd2; 0xa6; 0xab; 0xf7; 0x15; 0x88; 0x09; 0xcf; 0x4f; 0x3c].
Definition fips_pt : list Z :=
  [0x32; 0x43; 0xf6; 0xa8; 0x88; 0x5a; 0x30; 0x8d; 0x31; 0x31; 0x98; 0xa2; 0xe0; 0x37; 0x07; 0x34].
Definition fips_ct : list Z :=
  [0x39; 0x25; 0x84; 0x1d; 0x02; 0xdc; 0x09; 0xfb; 0xdc; 0x11; 0x85; 0x97; 0x19; 0x6a; 0x0b; 0x32].
Definition fips_last_round_key : list Z :=
  [0xd0; 0x14; 0xf9; 0xa8; 0xc9; 0xee; 0x25; 0x89; 0xe1; 0x3f; 0x0c; 0xc8; 0xb6; 0x63; 0x0c; 0xa6].

(** Hash subkey, first ciphertext block, intermediate value X1 and tag of
    test case 2 of the GCM specification (AES-128, all-zero key and IV,
    one all-zero block of plaintext). *)
Definition H_kat : list Z :=
  [0x66; 0xe9; 0x4b; 0xd4; 0xef; 0x8a; 0x2c; 0x3b; 0x88; 0x4c; 0xfa; 0x59; 0xca; 0x34; 0x2b; 0x2e].
Definition D_kat : list Z :=
  [0x03; 0x88; 0xda; 0xce; 0x60; 0xb6; 0xa3; 0x92; 0xf3; 0x28; 0xc2; 0xb9; 0x71; 0xb2; 0xfe; 0x78].
Definition X1_kat : list Z :=
  [0x5e; 0x2e; 0xc7; 0x46; 0x91; 0x70; 0x62; 0x88; 0x2c; 0x85; 0xb0; 0x68; 0x53; 0x53; 0xde; 0xb7].
Definition tag_kat : list Z :=
  [0xab; 0x6e; 0x47; 0xd4; 0x2c; 0xec; 0x13; 0xbd; 0xf5; 0x3a; 0x67; 0xb2; 0x12; 0x57; 0xbd; 0xdf].

Local Close Scope Z_scope.


(** * Properties *)

(** ** The embedding on published vectors *)

(** With AES-128 alone enabled, [KeyExpansion] and [Cipher] reproduce the
    example of FIPS-197, appendix B. *)
Example KeyExpansion_fips_197 :
  drop 160 <$> KeyExpansion aes128_only (zeros 176) fips_key = Some fips_last_round_key.
Proof. vm_compute. reflexivity. Qed.

Example Cipher_fips_197 :
  (fun rk => Cipher aes128_only fips_pt rk) <$> KeyExpansion aes128_only (zeros 176) fips_key
  = Some fips_ct.
Proof. vm_compute. reflexivity. Qed.

(** The reference algorithms of the specification, over [Cipher] with the
    AES-128 schedule of the all-zero key, reproduce test case 2 of the GCM
    specification: H, the ciphertext block, and the tag. *)
Example Spec_gcm_test_case_2 :
  (fun rk =>
     let H := Cipher aes128_only (zeros 16) rk in
     let J0 := zeros 15 ++ [1%Z] in
     let CT := Spec.CTR_xcrypt aes128_only rk (Spec.counter_add J0 1) (zeros 16) 16 in
     let S := Spec.ghash_update (zeros 16) H CT 16 in
     let S := Spec.ghash_update S H (Spec.length_block 0 16) 16 in
     (H, CT, xor_tag S (Cipher aes128_only J0 rk)))
  <$> KeyExpansion aes128_only (zeros 176) (zeros 16)
  = Some (H_kat, D_kat, tag_kat).
Proof. vm_compute. reflexivity. Qed.

(** With AES-512 alone enabled, [Nk] is 16 and the schedule is produced. *)
Example KeyExpansion_aes512_only :
  Nk aes512_only = 16 /\ Nr aes512_only = 22 /\
  length <$> KeyExpansion aes512_only (zeros 368) (bytes_from 1 64) = Some 368.
Proof. vm_compute. repeat split; reflexivity. Qed.

(** ** Loops and arrays *)

Lemma for_range_S {St : Type} (lo n : nat) (body : nat -> St -> St) (s : St) :
  for_range lo (S n) body s = for_range (S lo) n body (body lo s).
Proof. reflexivity. Qed.

Lemma for_range_inv {St : Type} (P : St -> Prop) (body : nat -> St -> St) (n lo : nat) (s : St) :
  P s -> (forall i s, lo <= i < lo + n -> P s -> P (body i s)) -> P (for_range lo n body s).
Proof.
  revert lo s. induction n as [|n IH]; intros lo s Hs Hbody; [exact Hs|].
  rewrite for_range_S. apply IH.
  - apply Hbody; [lia | exact Hs].
  - intros i s' Hi. apply Hbody. lia.
Qed.

Lemma peek_zeros (n i : nat) : peek (zeros n) i = 0%Z.
Proof.
  unfold peek, zeros. destruct (decide (i < n)) as [Hi|Hi].
  - now rewrite lookup_replicate_2.
  - rewrite lookup_ge_None_2; [reflexivity|]. rewrite length_replicate. lia.
Qed.

Lemma peek_app_l (a b : list Z) (i : nat) : i < length a -> peek (a ++ b) i = peek a i.
Proof. intros Hi. unfold peek. now rewrite lookup_app_l. Qed.

Lemma length_xor16 (a b : list Z) (off : nat) : length (xor16 a b off) = 16.
Proof. unfold xor16. now rewrite length_map, length_seq. Qed.

Lemma memset_16 (a : list Z) : length a = 16 -> memset a 0 16 = zeros 16.
Proof.
  intros Ha. unfold memset, zeros. rewrite drop_ge by lia. apply app_nil_r.
Qed.

Lemma peek_memset_0 (a : list Z) (n i : nat) : i < n -> peek (memset a 0 n) i = 0%Z.
Proof.
  intros Hi. unfold memset. rewrite peek_app_l by (rewrite length_replicate; lia).
  apply (peek_zeros n i).
Qed.

Lemma map_peek_seq (a : list Z) : map (peek a) (seq 0 (length a)) = a.
Proof.
  apply list_eq. intros i. rewrite list_lookup_fmap.
  destruct (decide (i < length a)) as [Hi|Hi].
  - rewrite lookup_seq_lt by exact Hi. simpl. unfold peek.
    destruct (lookup_lt_is_Some_2 a i Hi) as [x Hx].
    now rewrite Hx.
  - rewrite lookup_seq_ge by lia. simpl. symmetry. apply lookup_ge_None_2. lia.
Qed.

Lemma memcpy_16 (dst src : list Z) : length dst = 16 -> length src = 16 -> memcpy dst src 16 = src.
Proof.
  intros Hd Hs. unfold memcpy. rewrite drop_ge by lia. rewrite app_nil_r.
  rewrite <- Hs at 1. apply map_peek_seq.
Qed.

(** ** GHASH: what the aliased call computes *)

(** With [res] and [x] the same array, [memset(res, 0, 16)] clears [x]
    before any of its bits is tested; no bit is then set, and [res] is
    never accumulated into. *)
Lemma ghash_gmul_alias (x y : string) (m : store) :
  ghash_gmul x y x m = <[x := memset (m !!! x) 0 16]> m.
Proof.
  unfold ghash_gmul.
  set (m1 := <[x := memset (m !!! x) 0 16]> m).
  generalize (memcpy (zeros 16) (m1 !!! y) 16). intros V.
  apply (for_range_inv (fun mV : store * list Z => fst mV = m1)); [reflexivity|].
  intros i mV Hi HmV.
  apply (for_range_inv (fun mV : store * list Z => fst mV = m1)); [exact HmV|].
  intros j [m' V'] _ Hm'. simpl in Hm'. subst m'. simpl.
  subst m1. rewrite lookup_total_insert_eq.
  rewrite peek_memset_0 by lia.
  rewrite Z.shiftr_0_l. reflexivity.
Qed.

(** One block absorbed by [ghash_update]: the XOR into [S] followed by the
    call [ghash_gmul(S, H, S)]. *)
Lemma ghash_absorb_clears (S H : string) (blk : list Z) (off : nat) (m : store) :
  ghash_gmul S H S (<[S := xor16 (m !!! S) blk off]> m) = <[S := zeros 16]> m.
Proof.
  rewrite ghash_gmul_alias, lookup_total_insert_eq, insert_insert_eq.
  now rewrite memset_16 by apply length_xor16.
Qed.

Lemma ghash_update_0 (S H : string) (data : list Z) (m : store) :
  ghash_update S H data 0 m = m.
Proof. reflexivity. Qed.

Lemma ghash_update_pos (S H : string) (data : list Z) (len : nat) (m : store) :
  0 < len -> ghash_update S H data len m = <[S := zeros 16]> m.
Proof.
  intros Hlen. unfold ghash_update.
  set (nb := len / AES_BLOCKLEN).
  assert (Hloop : for_range 0 nb (fun b m =>
            ghash_gmul S H S (<[S := xor16 (m !!! S) data (b * AES_BLOCKLEN)]> m)) m
          = if nb =? 0 then m else <[S := zeros 16]> m).
  { generalize 0 at 1. revert m. induction nb as [|nb IH]; intros m lo; [reflexivity|].
    rewrite for_range_S, ghash_absorb_clears, IH.
    destruct nb; simpl; [reflexivity|]. apply insert_insert_eq. }
  rewrite Hloop. clear Hloop.
  destruct (Nat.ltb_spec (nb * AES_BLOCKLEN) len) as [Hpart|Hfull].
  - rewrite ghash_absorb_clears. destruct (nb =? 0); [reflexivity|]. apply insert_insert_eq.
  - destruct (Nat.eqb_spec nb 0) as [Hnb|Hnb]; [|reflexivity].
    rewrite Hnb in Hfull. simpl in Hfull. lia.
Qed.

(** ** GHASH: what the call computes on separate arrays *)

Lemma land_1_cases (b : Z) : Z.land b 1 = 0%Z \/ Z.land b 1 = 1%Z.
Proof.
  change 1%Z with (Z.ones 1) at 1 2. rewrite Z.land_ones by lia.
  change (2 ^ 1)%Z with 2%Z. pose proof (Z.mod_pos_bound b 2). lia.
Qed.

Lemma bit_test_testbit (a : Z) (n : Z) :
  (0 <= n)%Z -> negb (Z.land (Z.shiftr a n) 1 =? 0)%Z = Z.testbit a n.
Proof.
  intros Hn. rewrite <- (Z.add_0_l n) at 2. rewrite <- Z.shiftr_spec by lia.
  rewrite Z.bit0_odd.
  change 1%Z with (Z.ones 1). rewrite Z.land_ones by lia. change (2 ^ 1)%Z with 2%Z.
  rewrite Zmod_odd. destruct (Z.odd _); reflexivity.
Qed.

Lemma carry_bit (a b : Z) :
  (if negb (Z.land b 1 =? 0)%Z then Z.lor a 128 else a) = Z.lor a (Z.shiftl (Z.land b 1) 7).
Proof.
  destruct (land_1_cases b) as [-> | ->]; simpl; [now rewrite Z.lor_0_r | reflexivity].
Qed.

Lemma peek_insert_eq (a : list Z) (i : nat) (v : Z) : i < length a -> peek (<[i := v]> a) i = v.
Proof. intros Hi. unfold peek. now rewrite list_lookup_insert_eq. Qed.

Lemma peek_insert_ne (a : list Z) (i j : nat) (v : Z) : i <> j -> peek (<[i := v]> a) j = peek a j.
Proof. intros Hij. unfold peek. now rewrite list_lookup_insert_ne. Qed.

Lemma list_eq_peek (a b : list Z) :
  length a = length b -> (forall i, i < length a -> peek a i = peek b i) -> a = b.
Proof.
  intros Hlen Hpeek. apply list_eq. intros i.
  destruct (decide (i < length a)) as [Hi|Hi].
  - specialize (Hpeek i Hi). unfold peek in Hpeek.
    destruct (lookup_lt_is_Some_2 a i Hi) as [x Hx].
    destruct (lookup_lt_is_Some_2 b i ltac:(lia)) as [y Hy].
    rewrite Hx, Hy in *. simpl in Hpeek. congruence.
  - rewrite !lookup_ge_None_2 by lia. reflexivity.
Qed.

Lemma shift_byte_step_peek (V : list Z) (k i : nat) :
  k < length V ->
  length (shift_byte_step V k) = length V /\
  peek (shift_byte_step V k) i = if decide (i = k) then shifted_byte V k else peek V i.
Proof.
  intros Hk. unfold shift_byte_step, shifted_byte.
  destruct (Nat.ltb_spec 0 k) as [Hpos|Hzero]; cbn [andb].
  - rewrite (peek_insert_ne _ k (k - 1)) by lia. rewrite peek_insert_eq by exact Hk.
    rewrite <- carry_bit.
    destruct (negb _); rewrite ?length_insert; (split; [reflexivity|]);
      destruct (decide (i = k)) as [->|Hne];
      rewrite ?peek_insert_eq, ?peek_insert_ne by (rewrite ?length_insert; congruence || lia);
      reflexivity.
  - rewrite length_insert. split; [reflexivity|].
    destruct (decide (i = k)) as [->|Hne].
    + rewrite peek_insert_eq by exact Hk. now rewrite Z.lor_0_r.
    + now rewrite peek_insert_ne by congruence.
Qed.

Lemma shift_right_V_peek (n : nat) : forall V : list Z,
  n <= length V ->
  let V' := fold_left shift_byte_step (rev (seq 0 n)) V in
  length V' = length V /\
  forall i, peek V' i = if i <? n then shifted_byte V i else peek V i.
Proof.
  induction n as [|n IH]; intros V Hn; [split; reflexivity|].
  rewrite seq_S, rev_app_distr. cbn [rev app fold_left Nat.add].
  destruct (IH (shift_byte_step V n)) as [Hlen Hpeek].
  { destruct (shift_byte_step_peek V n 0 ltac:(lia)) as [-> _]. lia. }
  cbv zeta in *. split.
  - rewrite Hlen. now destruct (shift_byte_step_peek V n 0 ltac:(lia)).
  - intros i. rewrite Hpeek.
    destruct (Nat.ltb_spec i n) as [Hin|Hin], (Nat.ltb_spec i (S n)) as [HiS|HiS]; try lia.
    + unfold shifted_byte.
      destruct (shift_byte_step_peek V n i ltac:(lia)) as [_ ->].
      destruct (shift_byte_step_peek V n (i - 1) ltac:(lia)) as [_ ->].
      destruct (decide (i = n)), (decide (i - 1 = n)); lia || reflexivity.
    + destruct (shift_byte_step_peek V n i ltac:(lia)) as [_ ->].
      destruct (decide (i = n)) as [->|]; lia || reflexivity.
    + destruct (shift_byte_step_peek V n i ltac:(lia)) as [_ ->].
      destruct (decide (i = n)); lia || reflexivity.
Qed.

Lemma shift_right_V_spec (V : list Z) : length V = 16 -> shift_right_V V = Spec.shift_right V.
Proof.
  intros HV.
  pose proof (shift_right_V_peek 16 V) as HH.
  assert (H16 : 16 <= length V) by lia.
  specialize (HH H16).
  cbv zeta in HH.
  destruct HH as [Hlen Hpeek].
  unfold shift_right_V.
  apply list_eq_peek.
  - rewrite Hlen. unfold Spec.shift_right. rewrite length_map, length_seq. exact HV.
  - intros i Hi. rewrite Hlen, HV in Hi. rewrite Hpeek.
    destruct (Nat.ltb_spec i 16) as [_|]; [|lia].
    unfold Spec.shift_right, peek at 1. rewrite list_lookup_fmap, lookup_seq_lt by exact Hi.
    reflexivity.
Qed.

Lemma for_range_rel {A B : Type} (R : A -> B -> Prop)
    (bodyA : nat -> A -> A) (bodyB : nat -> B -> B) (n lo : nat) (a : A) (b : B) :
  R a b ->
  (forall i a b, lo <= i < lo + n -> R a b -> R (bodyA i a) (bodyB i b)) ->
  R (for_range lo n bodyA a) (for_range lo n bodyB b).
Proof.
  revert lo a b. induction n as [|n IH]; intros lo a b Hab Hbody; [exact Hab|].
  rewrite !for_range_S. apply IH.
  - apply Hbody; [lia | exact Hab].
  - intros i a' b' Hi. apply Hbody. lia.
Qed.

Lemma length_shift_right_V (V : list Z) : length V = 16 -> length (shift_right_V V) = 16.
Proof. intros HV. rewrite shift_right_V_spec by exact HV. unfold Spec.shift_right. now rewrite length_map, length_seq. Qed.

Lemma step_V_spec (V : list Z) :
  length V = 16 ->
  length (step_V V) = 16 /\
  step_V V = (let lsb := Z.land (peek V 15) 1 in
              let V := Spec.shift_right V in
              if (lsb =? 1)%Z then <[0 := Z.lxor (peek V 0) 0xE1]> V else V).
Proof.
  intros HV. unfold step_V. cbv zeta. rewrite shift_right_V_spec by exact HV.
  assert (Hlen : length (Spec.shift_right V) = 16)
    by (unfold Spec.shift_right; now rewrite length_map, length_seq).
  destruct (land_1_cases (peek V 15)) as [-> | ->]; cbn [Z.eqb negb];
    rewrite ?length_insert; split; (exact Hlen || reflexivity).
Qed.

Lemma ghash_gmul_separate (x y res : string) (m : store) :
  x <> res -> y <> res -> length (m !!! y) = 16 -> length (m !!! res) = 16 ->
  ghash_gmul x y res m !!! res = Spec.GF_mul (m !!! x) (m !!! y) /\
  forall l, l <> res -> ghash_gmul x y res m !! l = m !! l.
Proof.
  intros Hx Hy Hly Hlres. unfold ghash_gmul, Spec.GF_mul.
  rewrite (lookup_total_insert_ne m res y) by congruence.
  rewrite memcpy_16 by (exact Hly || reflexivity).
  rewrite memset_16 by exact Hlres.
  set (R := fun (mV : store * list Z) (ZV : list Z * list Z) =>
              snd mV = snd ZV /\ fst mV !!! res = fst ZV /\ fst mV !!! x = m !!! x /\
              length (snd mV) = 16 /\ forall l, l <> res -> fst mV !! l = m !! l).
  assert (HR : R (for_range 0 16 (fun i mV =>
                    for_range 0 8 (fun j '(m, V) =>
                      let m := if negb (Z.land (Z.shiftr (peek (m !!! x) i) (7 - Z.of_nat j)) 1 =? 0)%Z
                               then <[res := xor16 (m !!! res) V 0]> m else m in
                      (m, step_V V)) mV) (<[res := zeros 16]> m, m !!! y))
                 (for_range 0 16 (fun i ZV =>
                    for_range 0 8 (fun j '(Zacc, V) =>
                      let Zacc := if Z.testbit (peek (m !!! x) i) (7 - Z.of_nat j)
                                  then xor16 Zacc V 0 else Zacc in
                      let lsb := Z.land (peek V 15) 1 in
                      let V := Spec.shift_right V in
                      let V := if (lsb =? 1)%Z then <[0 := Z.lxor (peek V 0) 0xE1]> V else V in
                      (Zacc, V)) ZV) (zeros 16, m !!! y))).
  { apply for_range_rel.
    - unfold R. cbn [fst snd]. repeat split.
      + apply lookup_total_insert_eq.
      + apply lookup_total_insert_ne. congruence.
      + exact Hly.
      + intros l Hl. apply lookup_insert_ne. congruence.
    - intros i mV ZV _ HmV. apply for_range_rel; [exact HmV|].
      intros j [m' V'] [Zacc V''] Hj (HV & Hres & Hxm & HlV & Hfr). cbn [fst snd] in *.
      subst V'' Zacc. unfold R. cbn [fst snd].
      rewrite Hxm, bit_test_testbit by lia.
      destruct (step_V_spec V' HlV) as [Hlen' Hstep]. cbv zeta in Hstep.
      split; [exact Hstep|]. split; [|split; [|split; [exact Hlen'|]]].
      + destruct (Z.testbit _ _); [apply lookup_total_insert_eq | reflexivity].
      + destruct (Z.testbit _ _); [|exact Hxm].
        rewrite lookup_total_insert_ne by congruence. exact Hxm.
      + intros l Hl. destruct (Z.testbit _ _); [|now apply Hfr].
        rewrite lookup_insert_ne by congruence. now apply Hfr. }
  destruct HR as (_ & Hres & _ & _ & Hfr). split; [exact Hres | exact Hfr].
Qed.

(** ** Constant-time comparison *)

Lemma for_range_snoc {St : Type} (lo n : nat) (body : nat -> St -> St) (s : St) :
  for_range lo (S n) body s = body (lo + n) (for_range lo n body s).
Proof. unfold for_range. rewrite seq_S, fold_left_app. reflexivity. Qed.

Lemma constant_time_memcmp_0 (a b : list Z) (num : nat) :
  constant_time_memcmp a b num = 0%Z <-> forall i, i < num -> peek a i = peek b i.
Proof.
  unfold constant_time_memcmp.
  set (acc := fun n => for_range 0 n (fun i result =>
                         Z.lor result (Z.lxor (peek a i) (peek b i))) 0%Z).
  assert (Hacc : forall n, acc n = 0%Z <-> forall i, i < n -> peek a i = peek b i).
  { induction n as [|n IH].
    - split; [intros _ i Hi; lia | reflexivity].
    - unfold acc. rewrite for_range_snoc. fold (acc n). simpl.
      rewrite Z.lor_eq_0_iff, Z.lxor_eq_0_iff, IH. split.
      + intros [Hlt Hn] i Hi. destruct (decide (i = n)) as [->|Hne]; [exact Hn|].
        apply Hlt. lia.
      + intros Hall. split; [intros i Hi; apply Hall; lia | apply Hall; lia]. }
  fold (acc num). rewrite <- Hacc.
  destruct (Z.eqb_spec (acc num) 0) as [->|Hne]; [tauto|].
  split; [discriminate | intros Habs; contradiction].
Qed.

Lemma constant_time_memcmp_cases (a b : list Z) (num : nat) :
  constant_time_memcmp a b num = 0%Z \/ constant_time_memcmp a b num = 1%Z.
Proof. unfold constant_time_memcmp. destruct (_ =? _)%Z; auto. Qed.

(** ** Counter mode: the keystream does not depend on the data *)

Section CTR_facts.
Variable f : build_flags.
Variable RK : list Z.

Lemma CTR_loop_length (bytes : list Z) (bi : nat) (counter buffer : list Z) :
  length (snd (CTR_loop f RK bytes bi counter buffer)) = length bytes.
Proof.
  revert bi counter buffer. induction bytes as [|b rest IH]; intros bi counter buffer;
    [reflexivity|].
  simpl. destruct (bi =? AES_BLOCKLEN).
  - specialize (IH 1 (increment_tail 4 (AES_BLOCKLEN - 1) counter)
                     (memcpy (Cipher f buffer RK)
                             (increment_tail 4 (AES_BLOCKLEN - 1) counter) AES_BLOCKLEN)).
    destruct (CTR_loop _ _ _ _ _ _) as [c' out]. simpl in *. now rewrite IH.
  - specialize (IH (S bi) counter buffer).
    destruct (CTR_loop _ _ _ _ _ _) as [c' out]. simpl in *. now rewrite IH.
Qed.

Lemma CTR_loop_involutive (bytes : list Z) (bi : nat) (counter buffer : list Z) :
  snd (CTR_loop f RK (snd (CTR_loop f RK bytes bi counter buffer)) bi counter buffer) = bytes.
Proof.
  revert bi counter buffer. induction bytes as [|b rest IH]; intros bi counter buffer;
    [reflexivity|].
  simpl. destruct (bi =? AES_BLOCKLEN) eqn:Hbi.
  - specialize (IH 1 (increment_tail 4 (AES_BLOCKLEN - 1) counter)
                     (memcpy (Cipher f buffer RK)
                             (increment_tail 4 (AES_BLOCKLEN - 1) counter) AES_BLOCKLEN)).
    destruct (CTR_loop f RK rest _ _ _) as [c' out]. simpl in *. rewrite Hbi.
    destruct (CTR_loop f RK out _ _ _) as [c'' out']. simpl in *.
    rewrite IH. f_equal. rewrite Z.lxor_assoc, Z.lxor_nilpotent. apply Z.lxor_0_r.
  - specialize (IH (S bi) counter buffer).
    destruct (CTR_loop f RK rest _ _ _) as [c' out]. simpl in *. rewrite Hbi.
    destruct (CTR_loop f RK out _ _ _) as [c'' out']. simpl in *.
    rewrite IH. f_equal. rewrite Z.lxor_assoc, Z.lxor_nilpotent. apply Z.lxor_0_r.
Qed.

Lemma AES_CTR_xcrypt_buffer_bytes (counter buf : list Z) (n : nat) :
  snd (AES_CTR_xcrypt_buffer f RK counter buf n) = CTR_bytes f RK counter (take n buf) ++ drop n buf.
Proof.
  unfold AES_CTR_xcrypt_buffer, CTR_bytes.
  destruct (CTR_loop _ _ _ _ _ _) as [c' out]. reflexivity.
Qed.

Lemma CTR_bytes_length (counter bytes : list Z) :
  length (CTR_bytes f RK counter bytes) = length bytes.
Proof. apply CTR_loop_length. Qed.

Lemma CTR_bytes_involutive (counter bytes : list Z) :
  CTR_bytes f RK counter (CTR_bytes f RK counter bytes) = bytes.
Proof. apply CTR_loop_involutive. Qed.
End CTR_facts.

(** ** The two entry points, step by step *)

Section GCM_facts.
Variable f : build_flags.
Variable ctx : AES_ctx.

Lemma AES_GCM_encrypt_invalid iv iv_len aad aad_len pt ct pt_len tag :
  arg_check iv_len aad aad_len pt ct pt_len tag = true ->
  AES_GCM_encrypt f ctx iv iv_len aad aad_len pt ct pt_len tag = (InvalidArgument, ct, tag).
Proof. unfold arg_check, AES_GCM_encrypt. now intros ->. Qed.

Lemma AES_GCM_encrypt_run iv iv_len aad aad_len pt ct pt_len tag :
  arg_check iv_len aad aad_len pt ct pt_len tag = false ->
  AES_GCM_encrypt f ctx iv iv_len aad aad_len pt ct pt_len tag =
    let ct_buf := encrypt_ct f ctx (deref iv) iv_len (deref pt) (deref ct) pt_len in
    (Success, Some ct_buf,
     Some (gcm_tag f ctx (deref iv) iv_len (deref aad) aad_len ct_buf pt_len
           ++ drop AES_GCM_TAG_LEN (deref tag))).
Proof.
  unfold arg_check, AES_GCM_encrypt. intros ->.
  unfold gcm_tag, gcm_S, gcm_EK0, encrypt_ct, gcm_counter, gcm_J0.
  destruct (gcm_H_J0 f ctx (deref iv) iv_len) as [J0 m]. simpl fst. simpl snd.
  rewrite AES_CTR_xcrypt_buffer_bytes. reflexivity.
Qed.

Lemma AES_GCM_decrypt_invalid iv iv_len aad aad_len ct pt ct_len tag :
  arg_check iv_len aad aad_len ct pt ct_len tag = true ->
  AES_GCM_decrypt f ctx iv iv_len aad aad_len ct pt ct_len tag =
    {| dec_rc := InvalidArgument; dec_pt := pt; dec_pt_stores := [] |}.
Proof. unfold arg_check, AES_GCM_decrypt. now intros ->. Qed.

Lemma AES_GCM_decrypt_run iv iv_len aad aad_len ct pt ct_len tag :
  arg_check iv_len aad aad_len ct pt ct_len tag = false ->
  AES_GCM_decrypt f ctx iv iv_len aad aad_len ct pt ct_len tag =
    if negb (constant_time_memcmp (gcm_tag f ctx (deref iv) iv_len (deref aad) aad_len (deref ct) ct_len)
                                  (deref tag) AES_GCM_TAG_LEN =? 0)%Z
    then {| dec_rc := AuthenticationFailed;
            dec_pt := Some (memset (deref pt) 0 ct_len);
            dec_pt_stores := [memset (deref pt) 0 ct_len] |}
    else if 0 <? ct_len then
      let pt_copy := memcpy (deref pt) (deref ct) ct_len in
      let pt_buf := CTR_bytes f (RoundKey ctx) (gcm_counter f ctx (deref iv) iv_len) (take ct_len pt_copy)
                    ++ drop ct_len pt_copy in
      {| dec_rc := Success; dec_pt := Some pt_buf; dec_pt_stores := [pt_copy; pt_buf] |}
    else {| dec_rc := Success; dec_pt := pt; dec_pt_stores := [] |}.
Proof.
  unfold arg_check, AES_GCM_decrypt. intros ->.
  unfold gcm_tag, gcm_S, gcm_EK0, gcm_counter, gcm_J0.
  destruct (gcm_H_J0 f ctx (deref iv) iv_len) as [J0 m]. simpl fst. simpl snd.
  rewrite AES_CTR_xcrypt_buffer_bytes. reflexivity.
Qed.

(** The return value is one of the three codes, and is [InvalidArgument]
    only through the argument check. *)
Lemma AES_GCM_decrypt_rc iv iv_len aad aad_len ct pt ct_len tag :
  arg_check iv_len aad aad_len ct pt ct_len tag = false ->
  dec_rc (AES_GCM_decrypt f ctx iv iv_len aad aad_len ct pt ct_len tag) = Success \/
  dec_rc (AES_GCM_decrypt f ctx iv iv_len aad aad_len ct pt ct_len tag) = AuthenticationFailed.
Proof.
  intros Hchk. rewrite (AES_GCM_decrypt_run _ _ _ _ _ _ _ _ Hchk).
  destruct (negb _); [right; reflexivity|]. left. destruct (0 <? ct_len); reflexivity.
Qed.
End GCM_facts.

(** ** Argument validation *)

Lemma is_null_true (p : ptr) : is_null p = true <-> p = None.
Proof. destruct p; simpl; split; congruence. Qed.

Lemma arg_check_true (iv_len : nat) (aad : ptr) (aad_len : nat) (inp outp : ptr)
    (text_len : nat) (tag : ptr) :
  arg_check iv_len aad aad_len inp outp text_len tag = true <->
  iv_len = 0 \/ (aad = None /\ 0 < aad_len) \/ (inp = None /\ 0 < text_len)
  \/ outp = None \/ tag = None.
Proof.
  unfold arg_check.
  rewrite !orb_true_iff, !andb_true_iff, !is_null_true, Nat.eqb_eq, !Nat.ltb_lt. tauto.
Qed.

(** C9, as stated, fails: with an empty plaintext and a null [ct] pointer
    no pointer is null with a positive length and the IV length is 12, yet
    [AES_GCM_encrypt] returns InvalidArgument. *)
Lemma C9_null_ct_empty_pt_rejected :
  fst (fst (AES_GCM_encrypt aes_h ctx_zero (Some (zeros 12)) 12 None 0 None None 0
                            (Some (zeros 16)))) = InvalidArgument
  /\ ~ stated_invalid (Some (zeros 12)) 12 None 0 None None 0 (Some (zeros 16)).
Proof.
  split; [reflexivity|].
  unfold stated_invalid, null_with_length.
  intros [H|[[H _]|[[_ H]|[[_ H]|[[_ H]|[H _]]]]]]; try discriminate; lia.
Qed.

(** C9 (amended): with a non-null IV pointer, [AES_GCM_encrypt] and
    [AES_GCM_decrypt] return InvalidArgument exactly when [iv_len = 0], or
    [aad] is null with [aad_len > 0], or the input text pointer is null with
    a positive text length, or the output text pointer is null (whatever the
    length), or the tag pointer is null; in that case they return at once
    with the output buffers as they were. *)
Theorem C9_invalid_argument_iff (f : build_flags) (ctx : AES_ctx)
    (iv : ptr) (iv_len : nat) (aad : ptr) (aad_len : nat)
    (inp outp : ptr) (text_len : nat) (tag : ptr) :
  iv <> None ->
  let e := AES_GCM_encrypt f ctx iv iv_len aad aad_len inp outp text_len tag in
  let d := AES_GCM_decrypt f ctx iv iv_len aad aad_len inp outp text_len tag in
  (fst (fst e) = InvalidArgument <-> rejected iv_len aad aad_len inp outp text_len tag) /\
  (dec_rc d = InvalidArgument <-> rejected iv_len aad aad_len inp outp text_len tag) /\
  (rejected iv_len aad aad_len inp outp text_len tag ->
   e = (InvalidArgument, outp, tag) /\
   d = {| dec_rc := InvalidArgument; dec_pt := outp; dec_pt_stores := [] |}).
Proof.
  intros _ e d. subst e d. unfold rejected.
  rewrite <- arg_check_true.
  destruct (arg_check iv_len aad aad_len inp outp text_len tag) eqn:Hchk.
  - rewrite AES_GCM_encrypt_invalid, AES_GCM_decrypt_invalid by exact Hchk. simpl. tauto.
  - rewrite AES_GCM_encrypt_run by exact Hchk.
    destruct (AES_GCM_decrypt_rc f ctx iv iv_len aad aad_len inp outp text_len tag Hchk)
      as [-> | ->]; simpl; repeat split; intros; discriminate.
Qed.

(** The amended C9 on an empty plaintext with null text pointers. *)
Lemma C9_invalid_argument_iff_witness :
  Some (zeros 12) <> None /\
  let e := AES_GCM_encrypt aes_h ctx_zero (Some (zeros 12)) 12 None 0 None None 0 (Some (zeros 16)) in
  let d := AES_GCM_decrypt aes_h ctx_zero (Some (zeros 12)) 12 None 0 None None 0 (Some (zeros 16)) in
  (fst (fst e) = InvalidArgument <-> rejected 12 None 0 None None 0 (Some (zeros 16))) /\
  (dec_rc d = InvalidArgument <-> rejected 12 None 0 None None 0 (Some (zeros 16))) /\
  (rejected 12 None 0 None None 0 (Some (zeros 16)) ->
   e = (InvalidArgument, None, Some (zeros 16)) /\
   d = {| dec_rc := InvalidArgument; dec_pt := None; dec_pt_stores := [] |}).
Proof.
  split; [discriminate|].
  apply (C9_invalid_argument_iff aes_h ctx_zero (Some (zeros 12)) 12 None 0 None None 0
           (Some (zeros 16))).
  discriminate.
Defined.

(** ** Decryption: failure and round trip *)

(** C8: whenever [AES_GCM_decrypt] returns AuthenticationFailed, the first
    [ct_len] bytes of the plaintext buffer are zero on return, and the only
    store ever made into that buffer is the [memset] to zero: the tag is
    checked before the buffer receives any byte of ciphertext or keystream. *)
Theorem C8_auth_failure_zeroes_output (f : build_flags) (ctx : AES_ctx)
    (iv : ptr) (iv_len : nat) (aad : ptr) (aad_len : nat)
    (ct pt : ptr) (ct_len : nat) (tag : ptr) :
  let r := AES_GCM_decrypt f ctx iv iv_len aad aad_len ct pt ct_len tag in
  dec_rc r = AuthenticationFailed ->
  take ct_len (deref (dec_pt r)) = zeros ct_len /\
  (forall i, i < ct_len -> peek (deref (dec_pt r)) i = 0%Z) /\
  drop ct_len (deref (dec_pt r)) = drop ct_len (deref pt) /\
  dec_pt_stores r = [memset (deref pt) 0 ct_len] /\
  (forall s, s ∈ dec_pt_stores r -> take ct_len s = zeros ct_len).
Proof.
  intros r Hrc. subst r.
  destruct (arg_check iv_len aad aad_len ct pt ct_len tag) eqn:Hchk.
  { rewrite AES_GCM_decrypt_invalid in Hrc by exact Hchk. discriminate. }
  rewrite AES_GCM_decrypt_run in Hrc |- * by exact Hchk.
  destruct (negb _).
  2:{ destruct (0 <? ct_len); discriminate. }
  simpl. unfold memset.
  assert (Htake : take ct_len (replicate ct_len 0%Z ++ drop ct_len (deref pt)) = zeros ct_len).
  { rewrite take_app_length' by (now rewrite length_replicate). reflexivity. }
  repeat split.
  - exact Htake.
  - intros i Hi. rewrite peek_app_l by (rewrite length_replicate; exact Hi).
    apply (peek_zeros ct_len i).
  - rewrite drop_app_length' by (now rewrite length_replicate). reflexivity.
  - intros s Hs. apply list_elem_of_singleton in Hs. subst s. exact Htake.
Qed.

(** C8 on a two-byte ciphertext with an all-zero tag, which is rejected. *)
Lemma C8_auth_failure_zeroes_output_witness :
  let r := AES_GCM_decrypt aes_h ctx_zero (Some (zeros 12)) 12 (Some [1%Z]) 1
             (Some [2%Z; 3%Z]) (Some [7%Z; 7%Z; 7%Z]) 2 (Some (zeros 16)) in
  dec_rc r = AuthenticationFailed /\
  take 2 (deref (dec_pt r)) = zeros 2 /\
  (forall i, i < 2 -> peek (deref (dec_pt r)) i = 0%Z) /\
  drop 2 (deref (dec_pt r)) = drop 2 [7%Z; 7%Z; 7%Z] /\
  dec_pt_stores r = [memset [7%Z; 7%Z; 7%Z] 0 2] /\
  (forall s, s ∈ dec_pt_stores r -> take 2 s = zeros 2).
Proof.
  split; [vm_compute; reflexivity|].
  apply (C8_auth_failure_zeroes_output aes_h ctx_zero (Some (zeros 12)) 12 (Some [1%Z]) 1
           (Some [2%Z; 3%Z]) (Some [7%Z; 7%Z; 7%Z]) 2 (Some (zeros 16))).
  vm_compute. reflexivity.
Defined.

Lemma take_memcpy (dst src : list Z) (n : nat) :
  take n (memcpy dst src n) = map (peek src) (seq 0 n).
Proof. unfold memcpy. apply take_app_length'. now rewrite length_map, length_seq. Qed.

Lemma drop_memcpy (dst src : list Z) (n : nat) : drop n (memcpy dst src n) = drop n dst.
Proof. unfold memcpy. apply drop_app_length'. now rewrite length_map, length_seq. Qed.

Lemma map_peek_take (a : list Z) (n : nat) : n <= length a -> map (peek a) (seq 0 n) = take n a.
Proof.
  intros Hn. rewrite <- (map_peek_seq (take n a)).
  rewrite length_take, Nat.min_l by exact Hn.
  apply map_ext_in. intros i Hi. apply in_seq in Hi.
  unfold peek. rewrite lookup_take_lt by lia. reflexivity.
Qed.

Lemma map_peek_app_l (a b : list Z) : map (peek (a ++ b)) (seq 0 (length a)) = a.
Proof.
  rewrite <- (map_peek_seq a) at 3.
  apply map_ext_in. intros i Hi. apply in_seq in Hi. apply peek_app_l. lia.
Qed.

Lemma deref_Some (a : list Z) : deref (Some a) = a.
Proof. reflexivity. Qed.

Lemma length_xor_tag (S EK0 : list Z) : length (xor_tag S EK0) = AES_GCM_TAG_LEN.
Proof. unfold xor_tag. now rewrite length_map, length_seq. Qed.

(** C7, as stated, fails: all buffers are valid and non-null where their
    length is positive, [iv_len] is 12, and [AES_GCM_encrypt] of the empty
    plaintext succeeds; yet [AES_GCM_decrypt] of its output (CT, Tag) into a
    null plaintext pointer, which is valid for the length 0, returns
    InvalidArgument and not success: the guard of [AES_GCM_decrypt] tests
    [pt == NULL] whatever [ct_len] is. *)
Lemma C7_null_output_empty_pt_rejected :
  let iv := Some (bytes_from 1 12) in
  let e := AES_GCM_encrypt aes_h ctx_ramp iv 12 None 0 None (Some []) 0 (Some (zeros 16)) in
  let r := AES_GCM_decrypt aes_h ctx_ramp iv 12 None 0 (snd (fst e)) None 0 (snd e) in
  (1 <= 12 /\ valid_buf iv 12 /\ valid_buf None 0 /\ valid_buf (Some []) 0 /\
   valid_buf (Some (zeros 16)) AES_GCM_TAG_LEN /\
   e = (Success, snd (fst e), snd e)) /\
  dec_rc r = InvalidArgument /\ dec_rc r <> Success /\ dec_pt r = None.
Proof.
  cbv zeta. split.
  - split; [lia|]. split; [cbv; lia|]. split; [reflexivity|]. split; [cbv; lia|].
    split; [cbv; lia|]. vm_compute. reflexivity.
  - split; [vm_compute; reflexivity|]. split; [vm_compute; discriminate|].
    vm_compute. reflexivity.
Qed.

(** C7 (amended): for every build, context, IV with [iv_len >= 1], AAD and
    PT in valid buffers (non-null where the length is positive), if
    [AES_GCM_encrypt] succeeds with output (CT, Tag), then [AES_GCM_decrypt]
    on the same context, IV and AAD, on CT and Tag, with a valid plaintext
    output pointer that is not null (also when the length is 0), returns
    success, and the first [pt_len] bytes of that buffer are the plaintext
    (the rest of the buffer is untouched). *)
Theorem C7_round_trip (f : build_flags) (ctx : AES_ctx)
    (iv : ptr) (iv_len : nat) (aad : ptr) (aad_len : nat)
    (pt ct0 : ptr) (pt_len : nat) (tag0 outp CT Tag : ptr) :
  1 <= iv_len -> valid_buf iv iv_len -> valid_buf aad aad_len -> valid_buf pt pt_len ->
  valid_buf ct0 pt_len -> valid_buf tag0 AES_GCM_TAG_LEN ->
  outp <> None -> valid_buf outp pt_len ->
  AES_GCM_encrypt f ctx iv iv_len aad aad_len pt ct0 pt_len tag0 = (Success, CT, Tag) ->
  let r := AES_GCM_decrypt f ctx iv iv_len aad aad_len CT outp pt_len Tag in
  dec_rc r = Success /\
  take pt_len (deref (dec_pt r)) = take pt_len (deref pt) /\
  drop pt_len (deref (dec_pt r)) = drop pt_len (deref outp).
Proof.
  intros _ _ _ Hpt _ _ Hout _ Henc r. subst r.
  destruct (arg_check iv_len aad aad_len pt ct0 pt_len tag0) eqn:Hchk.
  { rewrite AES_GCM_encrypt_invalid in Henc by exact Hchk. discriminate. }
  rewrite AES_GCM_encrypt_run in Henc by exact Hchk.
  cbv zeta in Henc.
  assert (HCT : CT = Some (encrypt_ct f ctx (deref iv) iv_len (deref pt) (deref ct0) pt_len))
    by congruence.
  assert (HTag : Tag = Some (gcm_tag f ctx (deref iv) iv_len (deref aad) aad_len
                               (encrypt_ct f ctx (deref iv) iv_len (deref pt) (deref ct0) pt_len)
                               pt_len ++ drop AES_GCM_TAG_LEN (deref tag0)))
    by congruence.
  clear Henc. subst CT Tag.
  assert (Hchk' : arg_check iv_len aad aad_len
            (Some (encrypt_ct f ctx (deref iv) iv_len (deref pt) (deref ct0) pt_len)) outp pt_len
            (Some (gcm_tag f ctx (deref iv) iv_len (deref aad) aad_len
                     (encrypt_ct f ctx (deref iv) iv_len (deref pt) (deref ct0) pt_len) pt_len
                   ++ drop AES_GCM_TAG_LEN (deref tag0))) = false).
  { unfold arg_check in *. apply orb_false_iff in Hchk as [Hchk _].
    apply orb_false_iff in Hchk as [Hchk _]. apply orb_false_iff in Hchk as [Hchk _].
    apply orb_false_iff in Hchk as [-> ->]. destruct outp; [reflexivity | congruence]. }
  rewrite AES_GCM_decrypt_run by exact Hchk'. rewrite !deref_Some.
  set (ct_buf := encrypt_ct f ctx (deref iv) iv_len (deref pt) (deref ct0) pt_len).
  set (T := gcm_tag f ctx (deref iv) iv_len (deref aad) aad_len ct_buf pt_len).
  assert (Hcmp : constant_time_memcmp T (T ++ drop AES_GCM_TAG_LEN (deref tag0))
                   AES_GCM_TAG_LEN = 0%Z).
  { apply constant_time_memcmp_0. intros i Hi. symmetry. apply peek_app_l.
    unfold T, gcm_tag. rewrite length_xor_tag. exact Hi. }
  rewrite Hcmp. simpl negb. cbv iota.
  destruct (Nat.ltb_spec 0 pt_len) as [Hpos|Hzero].
  - simpl. rewrite take_memcpy, drop_memcpy.
    assert (Hbytes : CTR_bytes f (RoundKey ctx) (gcm_counter f ctx (deref iv) iv_len)
                       (map (peek ct_buf) (seq 0 pt_len))
                     = map (peek (deref pt)) (seq 0 pt_len)).
    { subst ct_buf. unfold encrypt_ct.
      destruct (Nat.ltb_spec 0 pt_len) as [_|Habs]; [|lia].
      rewrite take_memcpy, drop_memcpy.
      set (X := CTR_bytes f (RoundKey ctx) (gcm_counter f ctx (deref iv) iv_len)
                  (map (peek (deref pt)) (seq 0 pt_len))).
      assert (HX : length X = pt_len).
      { unfold X. now rewrite CTR_bytes_length, length_map, length_seq. }
      rewrite <- HX at 2. rewrite map_peek_app_l. apply CTR_bytes_involutive. }
    rewrite Hbytes.
    assert (Hvalid : pt_len <= length (deref pt)).
    { destruct pt as [a|]; simpl in *; [exact Hpt | lia]. }
    repeat split.
    + rewrite take_app_length' by (now rewrite length_map, length_seq).
      apply map_peek_take, Hvalid.
    + rewrite drop_app_length' by (now rewrite length_map, length_seq). reflexivity.
  - assert (pt_len = 0) as -> by lia. simpl. repeat split; now rewrite !take_0.
Qed.

(** The amended C7 on a 12-byte IV, 3 bytes of AAD and 20 bytes of plaintext. *)
Lemma C7_round_trip_witness :
  let iv := Some (bytes_from 1 12) in
  let aad := Some (bytes_from 100 3) in
  let pt := Some (bytes_from 50 20) in
  let ct0 := Some (zeros 20) in
  let tag0 := Some (zeros 16) in
  let e := AES_GCM_encrypt aes_h ctx_ramp iv 12 aad 3 pt ct0 20 tag0 in
  let outp := Some (replicate 24 9%Z) in
  (1 <= 12 /\ valid_buf iv 12 /\ valid_buf aad 3 /\ valid_buf pt 20 /\
   valid_buf ct0 20 /\ valid_buf tag0 AES_GCM_TAG_LEN /\
   outp <> None /\ valid_buf outp 20 /\
   e = (Success, snd (fst e), snd e)) /\
  let r := AES_GCM_decrypt aes_h ctx_ramp iv 12 aad 3 (snd (fst e)) outp 20 (snd e) in
  dec_rc r = Success /\
  take 20 (deref (dec_pt r)) = take 20 (deref pt) /\
  drop 20 (deref (dec_pt r)) = drop 20 (deref outp).
Proof.
  intros iv aad pt ct0 tag0 e outp.
  assert (Hiv : valid_buf iv 12) by (simpl; lia).
  assert (Haad : valid_buf aad 3) by (simpl; lia).
  assert (Hpt : valid_buf pt 20) by (simpl; lia).
  assert (Hct : valid_buf ct0 20) by (simpl; lia).
  assert (Htag : valid_buf tag0 AES_GCM_TAG_LEN) by (cbv; lia).
  assert (Hout : outp <> None) by discriminate.
  assert (Hout' : valid_buf outp 20) by (simpl; lia).
  assert (He : e = (Success, snd (fst e), snd e)) by (vm_compute; reflexivity).
  assert (H12 : 1 <= 12) by lia.
  split; [tauto|].
  apply (C7_round_trip aes_h ctx_ramp iv 12 aad 3 pt ct0 20 tag0
           outp (snd (fst e)) (snd e)); try assumption; lia.
Defined.

(** ** What the tag depends on *)

Section Tag_facts.
Variable f : build_flags.
Variable ctx : AES_ctx.

(** The length block is 16 bytes long, so the last [ghash_update] always
    runs the aliased multiplication: the accumulator that enters the tag
    is zero whatever the AAD and the text. *)
Lemma gcm_S_zero (iv : list Z) (iv_len : nat) (aad : list Z) (aad_len : nat)
    (text : list Z) (text_len : nat) :
  gcm_S f ctx iv iv_len aad aad_len text text_len = zeros 16.
Proof.
  unfold gcm_S.
  rewrite (ghash_update_pos "GCM_S" "H" (final_len_block aad_len text_len) 16) by lia.
  apply lookup_total_insert_eq.
Qed.

Lemma gcm_tag_ignores_data (iv : list Z) (iv_len : nat)
    (aad aad' : list Z) (aad_len aad_len' : nat) (text text' : list Z) (text_len text_len' : nat) :
  gcm_tag f ctx iv iv_len aad aad_len text text_len
  = gcm_tag f ctx iv iv_len aad' aad_len' text' text_len'.
Proof. unfold gcm_tag. now rewrite !gcm_S_zero. Qed.

(** For an IV that is not 12 bytes long, [J0] is the accumulator after two
    [ghash_update] calls, the second over 16 bytes: it is zero whatever
    the IV. *)
Lemma gcm_J0_not_12 (iv : list Z) (iv_len : nat) :
  iv_len <> AES_GCM_IV_LEN -> gcm_J0 f ctx iv iv_len = zeros 16.
Proof.
  intros Hlen. unfold gcm_J0, gcm_H_J0.
  destruct (Nat.eqb_spec iv_len AES_GCM_IV_LEN) as [Heq|_]; [contradiction|].
  cbv beta iota zeta delta [fst].
  rewrite (ghash_update_pos "GCM_S" "H" (iv_len_block iv_len) 16) by lia.
  rewrite lookup_total_insert_eq. apply memcpy_16; reflexivity.
Qed.
End Tag_facts.

(** ** Counter mode: the bytes that are XORed into the buffer *)

Lemma length_increment_tail (n bi : nat) (counter : list Z) :
  length (increment_tail n bi counter) = length counter.
Proof.
  revert bi counter. induction n as [|n IH]; intros bi counter; [reflexivity|].
  simpl. destruct (_ =? _)%Z; [rewrite IH|]; apply length_insert.
Qed.

Lemma peek_memcpy (dst src : list Z) (n i : nat) : i < n -> peek (memcpy dst src n) i = peek src i.
Proof.
  intros Hi. unfold memcpy. rewrite peek_app_l by (now rewrite length_map, length_seq).
  unfold peek at 1. rewrite list_lookup_fmap, lookup_seq_lt by exact Hi. reflexivity.
Qed.

Section CTR_closed_form.
Variable f : build_flags.
Variable RK : list Z.

Lemma CTR_loop_cons_refill (b : Z) (rest counter buffer : list Z) :
  snd (CTR_loop f RK (b :: rest) AES_BLOCKLEN counter buffer)
  = let counter' := increment_tail 4 (AES_BLOCKLEN - 1) counter in
    let buffer' := memcpy (Cipher f buffer RK) counter' AES_BLOCKLEN in
    Z.lxor b (peek buffer' 0) :: snd (CTR_loop f RK rest 1 counter' buffer').
Proof.
  cbn [CTR_loop]. rewrite Nat.eqb_refl. cbv zeta.
  destruct (CTR_loop f RK rest 1 _ _) as [c' out]. reflexivity.
Qed.

Lemma CTR_loop_cons_inside (b : Z) (rest : list Z) (bi : nat) (counter buffer : list Z) :
  bi <> AES_BLOCKLEN ->
  snd (CTR_loop f RK (b :: rest) bi counter buffer)
  = Z.lxor b (peek buffer bi) :: snd (CTR_loop f RK rest (S bi) counter buffer).
Proof.
  intros Hbi. cbn [CTR_loop]. apply Nat.eqb_neq in Hbi. rewrite Hbi.
  destruct (CTR_loop f RK rest (S bi) counter buffer) as [c' out]. reflexivity.
Qed.

(** Inside a block ([bi < 16]) the XOR buffer holds the counter block
    itself: the encrypted block was overwritten by the [memcpy] that
    follows the increment. *)
Lemma CTR_loop_peek (bytes : list Z) :
  forall (bi : nat) (counter buffer : list Z) (p : nat),
  bi <= 16 ->
  (bi < 16 -> forall k, k < 16 -> peek buffer k = peek counter k) ->
  p < length bytes ->
  peek (snd (CTR_loop f RK bytes bi counter buffer)) p
  = Z.lxor (peek bytes p)
           (peek (counter_after ((bi + p) / 16) counter) ((bi + p) mod 16)).
Proof.
  induction bytes as [|b rest IH]; intros bi counter buffer p Hbi Hbuf Hp;
    [simpl in Hp; lia|].
  destruct (Nat.eq_dec bi AES_BLOCKLEN) as [->|Hne].
  - rewrite CTR_loop_cons_refill. cbv zeta.
    set (counter' := increment_tail 4 (AES_BLOCKLEN - 1) counter).
    set (buffer' := memcpy (Cipher f buffer RK) counter' AES_BLOCKLEN).
    assert (Hdiv : (AES_BLOCKLEN + p) / 16 = S (p / 16))
      by (change AES_BLOCKLEN with (1 * 16); now rewrite Nat.div_add_l).
    assert (Hmod : (AES_BLOCKLEN + p) mod 16 = p mod 16)
      by (rewrite Nat.add_comm; change AES_BLOCKLEN with (1 * 16); apply Nat.Div0.mod_add).
    rewrite Hdiv, Hmod. unfold counter_after. rewrite Nat.iter_succ_r. fold counter'.
    assert (Hbuf' : forall k, k < 16 -> peek buffer' k = peek counter' k)
      by (intros k Hk; unfold buffer'; now apply peek_memcpy).
    destruct p as [|p'].
    + change (peek (?x :: ?l) 0) with x. cbn [Nat.iter Nat.div Nat.modulo].
      rewrite Hbuf' by lia. reflexivity.
    + change (peek (b :: rest) (S p')) with (peek rest p').
      change (peek (?x :: ?l) (S p')) with (peek l p').
      rewrite IH; [reflexivity | lia | intros _; exact Hbuf' | simpl in Hp; lia].
  - rewrite CTR_loop_cons_inside by exact Hne.
    unfold AES_BLOCKLEN in Hne.
    destruct p as [|p'].
    + change (peek (?x :: ?l) 0) with x.
      rewrite Nat.add_0_r, Nat.div_small, Nat.mod_small by lia.
      cbn [counter_after Nat.iter]. rewrite Hbuf by lia. reflexivity.
    + change (peek (b :: rest) (S p')) with (peek rest p').
      change (peek (?x :: ?l) (S p')) with (peek l p').
      rewrite IH; [ | lia | intros _; apply Hbuf; lia | simpl in Hp; lia].
      now replace (S bi + p') with (bi + S p') by lia.
Qed.

(** What [AES_CTR_xcrypt_buffer] does to byte [i]: it is XORed with byte
    [i mod 16] of the counter block incremented [1 + i/16] times; no
    output of [Cipher] reaches the buffer. *)
Lemma AES_CTR_xcrypt_buffer_peek (C buf : list Z) (n i : nat) :
  i < n -> n <= length buf ->
  peek (snd (AES_CTR_xcrypt_buffer f RK C buf n)) i
  = Z.lxor (peek buf i) (peek (counter_after (S (i / 16)) C) (i mod 16)).
Proof.
  intros Hi Hn. rewrite AES_CTR_xcrypt_buffer_bytes. unfold CTR_bytes.
  assert (Hlen : length (take n buf) = n) by (rewrite length_take; lia).
  rewrite peek_app_l by (rewrite CTR_loop_length; lia).
  rewrite CTR_loop_peek; [ | unfold AES_BLOCKLEN; lia | unfold AES_BLOCKLEN; lia | lia].
  assert (Hdiv : (AES_BLOCKLEN + i) / 16 = S (i / 16))
    by (change AES_BLOCKLEN with (1 * 16); now rewrite Nat.div_add_l).
  assert (Hmod : (AES_BLOCKLEN + i) mod 16 = i mod 16)
    by (rewrite Nat.add_comm; change AES_BLOCKLEN with (1 * 16); apply Nat.Div0.mod_add).
  rewrite Hdiv, Hmod. f_equal.
  unfold peek. now rewrite lookup_take_lt by lia.
Qed.
End CTR_closed_form.

(** ** Counter mode: the increment is the big-endian 32-bit increment *)

Local Open Scope Z_scope.

Lemma be32_bytes (a b c d n : Z) :
  0 <= a < 256 -> 0 <= b < 256 -> 0 <= c < 256 -> 0 <= d < 256 ->
  n = a * 2 ^ 24 + b * 2 ^ 16 + c * 2 ^ 8 + d ->
  [u8 (Z.shiftr n 24); u8 (Z.shiftr n 16); u8 (Z.shiftr n 8); u8 n] = [a; b; c; d].
Proof.
  intros Ha Hb Hc Hd ->. unfold u8. rewrite !Z.shiftr_div_pow2 by lia.
  change (2 ^ 24) with 16777216. change (2 ^ 16) with 65536. change (2 ^ 8) with 256.
  repeat f_equal; Z.div_mod_to_equations; lia.
Qed.

Lemma u8_succ (b : Z) : 0 <= b < 256 -> u8 (b + 1) = if b =? 255 then 0 else b + 1.
Proof.
  intros Hb. unfold u8. destruct (Z.eqb_spec b 255) as [->|Hne]; [reflexivity|].
  apply Z.mod_small. lia.
Qed.

Lemma increment_tail_4 (pre : list Z) (a b c d : Z) :
  length pre = 12%nat ->
  0 <= a < 256 -> 0 <= b < 256 -> 0 <= c < 256 -> 0 <= d < 256 ->
  increment_tail 4 15 (pre ++ [a; b; c; d])
  = pre ++ (let v := (a * 2 ^ 24 + b * 2 ^ 16 + c * 2 ^ 8 + d + 1) mod 2 ^ 32 in
            [u8 (Z.shiftr v 24); u8 (Z.shiftr v 16); u8 (Z.shiftr v 8); u8 v]).
Proof.
  intros Hpre Ha Hb Hc Hd.
  do 13 (destruct pre as [|? pre]; try discriminate Hpre). clear Hpre.
  cbv zeta. cbn [app].
  change (2 ^ 24) with 16777216. change (2 ^ 16) with 65536. change (2 ^ 8) with 256.
  change (2 ^ 32) with 4294967296.
  cbn [increment_tail peek lookup list_lookup default id insert list_insert Nat.sub].
  rewrite (u8_succ d Hd).
  destruct (Z.eqb_spec d 255) as [->|Hd'].
  2:{ destruct (Z.eqb_spec (d + 1) 0); [lia|].
      rewrite (be32_bytes a b c (d + 1)); [reflexivity | lia ..|].
      rewrite Z.mod_small by lia. change (2 ^ 24) with 16777216.
      change (2 ^ 16) with 65536. change (2 ^ 8) with 256. lia. }
  cbn [Z.eqb]. rewrite (u8_succ c Hc).
  destruct (Z.eqb_spec c 255) as [->|Hc'].
  2:{ destruct (Z.eqb_spec (c + 1) 0); [lia|].
      rewrite (be32_bytes a b (c + 1) 0); [reflexivity | lia ..|].
      rewrite Z.mod_small by lia. change (2 ^ 24) with 16777216.
      change (2 ^ 16) with 65536. change (2 ^ 8) with 256. lia. }
  cbn [Z.eqb]. rewrite (u8_succ b Hb).
  destruct (Z.eqb_spec b 255) as [->|Hb'].
  2:{ destruct (Z.eqb_spec (b + 1) 0); [lia|].
      rewrite (be32_bytes a (b + 1) 0 0); [reflexivity | lia ..|].
      rewrite Z.mod_small by lia. change (2 ^ 24) with 16777216.
      change (2 ^ 16) with 65536. change (2 ^ 8) with 256. lia. }
  cbn [Z.eqb]. rewrite (u8_succ a Ha).
  destruct (Z.eqb_spec a 255) as [->|Ha'].
  2:{ destruct (Z.eqb_spec (a + 1) 0); [lia|].
      rewrite (be32_bytes (a + 1) 0 0 0); [reflexivity | lia ..|].
      rewrite Z.mod_small by lia. change (2 ^ 24) with 16777216.
      change (2 ^ 16) with 65536. change (2 ^ 8) with 256. lia. }
  reflexivity.
Qed.

Lemma bytes_be32 (v : Z) :
  0 <= v < 2 ^ 32 ->
  u8 (Z.shiftr v 24) * 2 ^ 24 + u8 (Z.shiftr v 16) * 2 ^ 16 + u8 (Z.shiftr v 8) * 2 ^ 8 + u8 v = v.
Proof.
  intros Hv. unfold u8. rewrite !Z.shiftr_div_pow2 by lia.
  change (2 ^ 24) with 16777216 in *. change (2 ^ 16) with 65536 in *.
  change (2 ^ 8) with 256 in *. change (2 ^ 32) with 4294967296 in *.
  Z.div_mod_to_equations. lia.
Qed.

Lemma u8_is_byte (z : Z) : is_byte (u8 z).
Proof. unfold is_byte, u8. apply Z.mod_pos_bound. lia. Qed.

Lemma counter_block_inv (C : list Z) :
  counter_block C ->
  exists pre a b c d, C = pre ++ [a; b; c; d] /\ length pre = 12%nat /\ Forall is_byte pre /\
                      is_byte a /\ is_byte b /\ is_byte c /\ is_byte d.
Proof.
  intros [HC HB]. do 17 (destruct C as [|? C]; try discriminate HC).
  repeat match goal with H : Forall _ (_ :: _) |- _ => apply Forall_cons in H as [? H] end.
  eexists [_; _; _; _; _; _; _; _; _; _; _; _], _, _, _, _.
  split; [reflexivity|]. split; [reflexivity|]. split; [|tauto].
  repeat (apply Forall_cons; split; [assumption|]). apply Forall_nil_2.
Qed.

Lemma counter_add_tail (pre : list Z) (a b c d n : Z) :
  length pre = 12%nat ->
  Spec.counter_add (pre ++ [a; b; c; d]) n
  = pre ++ (let v := (a * 2 ^ 24 + b * 2 ^ 16 + c * 2 ^ 8 + d + n) mod 2 ^ 32 in
            [u8 (Z.shiftr v 24); u8 (Z.shiftr v 16); u8 (Z.shiftr v 8); u8 v]).
Proof.
  intros Hpre. unfold Spec.counter_add.
  rewrite take_app_length', drop_app_length' by (symmetry; exact Hpre). reflexivity.
Qed.

Lemma counter_block_tail (pre : list Z) (v : Z) :
  length pre = 12%nat -> Forall is_byte pre ->
  counter_block (pre ++ [u8 (Z.shiftr v 24); u8 (Z.shiftr v 16); u8 (Z.shiftr v 8); u8 v]).
Proof.
  intros Hpre HB. split.
  - rewrite length_app, Hpre. reflexivity.
  - apply Forall_app. split; [exact HB|].
    repeat (apply Forall_cons; split; [apply u8_is_byte|]). apply Forall_nil_2.
Qed.

Lemma increment_tail_spec (C : list Z) :
  counter_block C ->
  increment_tail 4 15 C = Spec.counter_add C 1 /\ counter_block (Spec.counter_add C 1).
Proof.
  intros HC. destruct (counter_block_inv C HC) as (pre & a & b & c & d & -> & Hpre & HB & Ha & Hb & Hc & Hd).
  rewrite counter_add_tail by exact Hpre. split.
  - apply increment_tail_4; assumption.
  - cbv zeta. apply counter_block_tail; assumption.
Qed.

Lemma counter_add_0 (C : list Z) : counter_block C -> Spec.counter_add C 0 = C.
Proof.
  intros HC. destruct (counter_block_inv C HC) as (pre & a & b & c & d & -> & Hpre & HB & Ha & Hb & Hc & Hd).
  rewrite counter_add_tail by exact Hpre. cbv zeta. f_equal.
  unfold is_byte in *. apply be32_bytes; try assumption.
  rewrite Z.add_0_r. apply Z.mod_small.
  change (2 ^ 24) with 16777216. change (2 ^ 16) with 65536. change (2 ^ 8) with 256.
  change (2 ^ 32) with 4294967296. lia.
Qed.

Lemma counter_add_add (C : list Z) (n k : Z) :
  counter_block C ->
  Spec.counter_add (Spec.counter_add C n) k = Spec.counter_add C (n + k) /\
  counter_block (Spec.counter_add C n).
Proof.
  intros HC. destruct (counter_block_inv C HC) as (pre & a & b & c & d & -> & Hpre & HB & Ha & Hb & Hc & Hd).
  rewrite !counter_add_tail by exact Hpre. cbv zeta.
  split; [|apply counter_block_tail; assumption].
  rewrite bytes_be32 by (apply Z.mod_pos_bound; lia).
  rewrite Z.add_mod_idemp_l by lia. rewrite Z.add_assoc. reflexivity.
Qed.

Lemma counter_after_spec (n : nat) (C : list Z) :
  counter_block C -> counter_after n C = Spec.counter_add C (Z.of_nat n).
Proof.
  intros HC. induction n as [|n IH].
  - simpl. symmetry. apply counter_add_0, HC.
  - unfold counter_after. rewrite Nat.iter_succ. fold (counter_after n C). rewrite IH.
    change (AES_BLOCKLEN - 1)%nat with 15%nat.
    destruct (counter_add_add C (Z.of_nat n) 1 HC) as [Hadd Hblk].
    destruct (increment_tail_spec _ Hblk) as [-> _]. rewrite Hadd.
    f_equal. lia.
Qed.

Local Close Scope Z_scope.

(** Byte [i] of the buffer is XORed with byte [i mod 16] of the counter
    block [C + 1 + i/16], taken as it is. *)
Lemma AES_CTR_xcrypt_buffer_counters (f : build_flags) (RK C buf : list Z) (n i : nat) :
  counter_block C -> i < n -> n <= length buf ->
  peek (snd (AES_CTR_xcrypt_buffer f RK C buf n)) i
  = Z.lxor (peek buf i) (peek (Spec.counter_add C (Z.of_nat (S (i / 16)))) (i mod 16)).
Proof.
  intros HC Hi Hn. rewrite AES_CTR_xcrypt_buffer_peek by assumption.
  now rewrite counter_after_spec.
Qed.

(** ** GHASH against the specification *)

(** C1 at S = 0^128, H = [H_kat], D = [D_kat], L = 16.  The claim asks for
    GF_mul(S XOR D, H) = [X1_kat]; the code leaves the accumulator at zero,
    because [ghash_gmul(S, H, S)] clears its own first operand.  (The part of
    the claim on L = 0 holds: [ghash_update_0].) *)
Theorem C1_ghash_update_clears_accumulator :
  let m : store := <["GCM_S" := zeros 16]> (<["H" := H_kat]> ∅) in
  Spec.ghash_update (zeros 16) H_kat D_kat 16 = X1_kat /\
  ghash_update "GCM_S" "H" D_kat 16 m !!! "GCM_S" = zeros 16 /\
  ghash_update "GCM_S" "H" D_kat 16 m !!! "GCM_S" <> Spec.ghash_update (zeros 16) H_kat D_kat 16 /\
  ghash_update "GCM_S" "H" D_kat 16 m !!! "H" = H_kat.
Proof.
  intros m.
  assert (Hspec : Spec.ghash_update (zeros 16) H_kat D_kat 16 = X1_kat)
    by (vm_compute; reflexivity).
  assert (Hcode : ghash_update "GCM_S" "H" D_kat 16 m !!! "GCM_S" = zeros 16).
  { rewrite ghash_update_pos by lia. apply lookup_total_insert_eq. }
  split; [exact Hspec|]. split; [exact Hcode|]. split.
  - rewrite Hcode, Hspec. discriminate.
  - rewrite ghash_update_pos by lia. rewrite lookup_total_insert_ne by discriminate.
    reflexivity.
Qed.

(** ** Length blocks *)

(** [encode_length] stores at offsets 8..15 of the pointer it is given.
    Called on [final_len_block] it puts the AAD length in bytes 8..15;
    called on [final_len_block + 8] (and on [len_block + 8]) it stores at
    bytes 16..23 of a 16-byte array. *)
Lemma final_len_block_eq (aad_len text_len : nat) :
  final_len_block aad_len text_len = zeros 8 ++ Spec.be64 (u64 (Z.of_nat aad_len * 8)).
Proof. reflexivity. Qed.

Lemma iv_len_block_eq (iv_len : nat) : iv_len_block iv_len = zeros 16.
Proof. reflexivity. Qed.

Lemma encode_length_plus_8_out_of_bounds (a : list Z) (len_bits : Z) :
  length a = 16 ->
  stores_in_bounds a 8 (encode_length len_bits) = false /\
  stores_at a 8 (encode_length len_bits) = a.
Proof.
  intros Ha. do 17 (destruct a as [|? a]; try discriminate Ha). split; reflexivity.
Qed.

(** C4 at aad_len = 1, pt_len = 2 (and for all lengths).  The claim asks
    for be64(8) followed by be64(16); the block the code absorbs has eight
    zero bytes followed by the AAD bit length, the text length having been
    stored past the end of the array. *)
Theorem C4_final_block_lacks_text_length :
  (forall aad_len text_len,
     final_len_block aad_len text_len = zeros 8 ++ Spec.be64 (u64 (Z.of_nat aad_len * 8))) /\
  (forall aad_len text_len,
     stores_in_bounds (stores_at (zeros 16) 0 (encode_length (u64 (Z.of_nat aad_len * 8)))) 8
       (encode_length (u64 (Z.of_nat text_len * 8))) = false) /\
  final_len_block 1 2 = zeros 15 ++ [8%Z] /\
  Spec.length_block 1 2 = zeros 7 ++ [8%Z] ++ zeros 7 ++ [16%Z] /\
  final_len_block 1 2 <> Spec.length_block 1 2.
Proof.
  split; [exact final_len_block_eq|].
  split; [reflexivity|].
  split; [reflexivity|].
  split; [reflexivity|].
  discriminate.
Qed.

(** ** Key schedule under the build of aes.h *)

(** aes.h pairs key length and round count as 16/10, 24/12, 32/14, 64/22,
    and sizes the schedule as 16 * (Nr + 1) bytes. *)
Lemma AES_KEYLEN_Nr_pairing (f : build_flags) :
  ((AES_KEYLEN f = 16 /\ Nr f = 10) \/ (AES_KEYLEN f = 24 /\ Nr f = 12) \/
   (AES_KEYLEN f = 32 /\ Nr f = 14) \/ (AES_KEYLEN f = 64 /\ Nr f = 22)) /\
  AES_keyExpSize f = AES_BLOCKLEN * (Nr f + 1).
Proof. destruct f as [[] [] [] []]; cbv; tauto. Qed.

(** In a 22-round build, [Nk] is 16 only when neither AES256 nor AES192 is
    enabled. *)
Lemma Nk_16_iff (f : build_flags) :
  AES512 f = true -> (Nk f = 16 <-> AES256 f = false /\ AES192 f = false).
Proof.
  destruct f as [[] [] [] []]; cbv; intros H512; try discriminate H512;
    intuition congruence.
Qed.

Lemma Rcon_index_consistent (f : build_flags) (i : nat) :
  consistent f -> i < Nb * (Nr f + 1) -> Rcon_index f i <= 10.
Proof.
  unfold consistent, Rcon_index.
  destruct f as [[] [] [] []]; cbv [Nk AES_KEYLEN Nr Nb AES128 AES192 AES256 AES512];
    intros Hc Hi; try discriminate Hc;
    apply Nat.lt_succ_r, Nat.Div0.div_lt_upper_bound; lia.
Qed.

Lemma peek_take (a : list Z) (n i : nat) : i < n -> peek (take n a) i = peek a i.
Proof. intros Hi. unfold peek. now rewrite lookup_take_lt. Qed.

Lemma KeyExpansion_copy_aes_h (RoundKey Key : list Z) :
  KeyExpansion_copy aes_h RoundKey Key = KeyExpansion_copy aes_h RoundKey (take 32 Key).
Proof.
  unfold KeyExpansion_copy, for_range.
  cbn [Nk aes_h AES256 AES192 AES512 seq fold_left].
  rewrite !peek_take by lia. reflexivity.
Qed.

Lemma KeyExpansion_words_split (f : build_flags) (n1 n2 lo : nat) (RoundKey : list Z) :
  KeyExpansion_words f (n1 + n2) lo RoundKey
  = KeyExpansion_words f n1 lo RoundKey ≫= KeyExpansion_words f n2 (lo + n1).
Proof.
  revert lo RoundKey. induction n1 as [|n1 IH]; intros lo RoundKey.
  - simpl. now rewrite Nat.add_0_r.
  - cbn [Nat.add KeyExpansion_words].
    destruct (KeyExpansion_word f lo RoundKey) as [rk|]; [|reflexivity].
    cbn [mbind option_bind]. rewrite IH. now rewrite Nat.add_succ_r.
Qed.

Lemma KeyExpansion_word_88 (RoundKey : list Z) : KeyExpansion_word aes_h 88 RoundKey = None.
Proof. reflexivity. Qed.

Lemma KeyExpansion_aes_h_None (RoundKey0 Key : list Z) : KeyExpansion aes_h RoundKey0 Key = None.
Proof.
  unfold KeyExpansion.
  change (Nb * (Nr aes_h + 1) - Nk aes_h) with (80 + 4).
  rewrite KeyExpansion_words_split.
  destruct (KeyExpansion_words aes_h 80 (Nk aes_h) _) as [rk|]; [|reflexivity].
  cbn [mbind option_bind]. change (Nk aes_h + 80) with 88.
  cbn [KeyExpansion_words]. now rewrite KeyExpansion_word_88.
Qed.

(** C6 on the build of aes.h with the key bytes 1..64: the 22-round
    configuration is the one selected and the header's key length is 64
    bytes, but [Nk] is 8, not 64/4; the first loop of [KeyExpansion] copies
    key bytes 0..31 only, and bytes 32..63 of the key are never read. *)
Theorem C6_Nk_is_8_in_22_round_build :
  Nr aes_h = 22 /\ AES_KEYLEN aes_h = 64 /\ Nb * (Nr aes_h + 1) = 92 /\
  Nk aes_h = 8 /\ Nk aes_h <> AES_KEYLEN aes_h / 4 /\
  KeyExpansion_copy aes_h (zeros 368) (bytes_from 1 64) = bytes_from 1 32 ++ zeros 336 /\
  (forall RoundKey0 Key,
     KeyExpansion_copy aes_h RoundKey0 Key = KeyExpansion_copy aes_h RoundKey0 (take 32 Key)).
Proof.
  split; [reflexivity|]. split; [reflexivity|]. split; [reflexivity|].
  split; [reflexivity|]. split; [discriminate|]. split; [vm_compute; reflexivity|].
  exact KeyExpansion_copy_aes_h.
Qed.

(** C10 on the build of aes.h: word index 88 lies in [Nk, 4*(Nr+1)) and is
    a multiple of [Nk], and its round-constant index is 11, one past the
    last entry of the 11-entry table; the read is performed for every key. *)
Theorem C10_Rcon_read_out_of_bounds :
  Nk aes_h <= 88 < Nb * (Nr aes_h + 1) /\
  88 mod Nk aes_h = 0 /\
  Rcon_index aes_h 88 = 11 /\
  length Rcon = 11 /\
  Rcon !! Rcon_index aes_h 88 = None /\
  (forall RoundKey, KeyExpansion_word aes_h 88 RoundKey = None) /\
  (forall RoundKey0 Key, KeyExpansion aes_h RoundKey0 Key = None).
Proof.
  split; [cbv; lia|]. split; [reflexivity|]. split; [reflexivity|].
  split; [reflexivity|]. split; [reflexivity|].
  split; [exact KeyExpansion_word_88 | exact KeyExpansion_aes_h_None].
Qed.

(** ** Tag checking *)

Section Tag_check.
Variable f : build_flags.
Variable ctx : AES_ctx.

(** The outcome of the tag check does not depend on the AAD or on the
    ciphertext. *)
Lemma AES_GCM_decrypt_rc_ignores_data (iv : ptr) (iv_len : nat)
    (aad aad' : ptr) (aad_len aad_len' : nat) (ct ct' pt pt' : ptr) (ct_len ct_len' : nat)
    (tag : ptr) :
  arg_check iv_len aad aad_len ct pt ct_len tag = false ->
  arg_check iv_len aad' aad_len' ct' pt' ct_len' tag = false ->
  dec_rc (AES_GCM_decrypt f ctx iv iv_len aad aad_len ct pt ct_len tag)
  = dec_rc (AES_GCM_decrypt f ctx iv iv_len aad' aad_len' ct' pt' ct_len' tag).
Proof.
  intros H1 H2. rewrite !AES_GCM_decrypt_run by assumption.
  rewrite (gcm_tag_ignores_data f ctx (deref iv) iv_len (deref aad) (deref aad')
             aad_len aad_len' (deref ct) (deref ct') ct_len ct_len').
  destruct (negb _); [reflexivity|].
  destruct (0 <? ct_len), (0 <? ct_len'); reflexivity.
Qed.

(** A flipped bit in one of the 16 tag bytes is always caught. *)
Lemma AES_GCM_decrypt_tag_flip (iv : ptr) (iv_len : nat) (aad : ptr) (aad_len : nat)
    (ct pt : ptr) (ct_len : nat) (tag : list Z) (i bit : nat) :
  i < AES_GCM_TAG_LEN -> i < length tag ->
  dec_rc (AES_GCM_decrypt f ctx iv iv_len aad aad_len ct pt ct_len (Some tag)) = Success ->
  dec_rc (AES_GCM_decrypt f ctx iv iv_len aad aad_len ct pt ct_len (Some (flip_bit tag i bit)))
  = AuthenticationFailed.
Proof.
  intros Hi Hlen Hok.
  destruct (arg_check iv_len aad aad_len ct pt ct_len (Some tag)) eqn:Hchk.
  { rewrite AES_GCM_decrypt_invalid in Hok by exact Hchk. discriminate. }
  assert (Hchk' : arg_check iv_len aad aad_len ct pt ct_len (Some (flip_bit tag i bit)) = false)
    by exact Hchk.
  rewrite AES_GCM_decrypt_run in Hok |- * by assumption. rewrite deref_Some in *.
  set (T := gcm_tag f ctx (deref iv) iv_len (deref aad) aad_len (deref ct) ct_len) in *.
  destruct (Z.eqb_spec (constant_time_memcmp T tag AES_GCM_TAG_LEN) 0) as [Heq|Hne];
    [|discriminate Hok].
  destruct (Z.eqb_spec (constant_time_memcmp T (flip_bit tag i bit) AES_GCM_TAG_LEN) 0)
    as [Heq'|Hne']; [|reflexivity].
  exfalso.
  pose proof (proj1 (constant_time_memcmp_0 _ _ _) Heq i Hi) as H1.
  pose proof (proj1 (constant_time_memcmp_0 _ _ _) Heq' i Hi) as H2.
  rewrite H1 in H2. unfold flip_bit in H2. unfold peek at 2 in H2.
  rewrite list_lookup_insert_eq in H2 by exact Hlen. simpl in H2.
  assert (Hz : (2 ^ Z.of_nat bit)%Z = 0%Z).
  { apply (f_equal (Z.lxor (peek tag i))) in H2.
    rewrite <- Z.lxor_assoc, Z.lxor_nilpotent, Z.lxor_0_l in H2. symmetry. exact H2. }
  assert (0 < 2 ^ Z.of_nat bit)%Z by (apply Z.pow_pos_nonneg; lia). lia.
Qed.
End Tag_check.

(** C2 on the build of aes.h, context [ctx_ramp], IV = bytes 1..12,
    AAD = bytes 100..102, PT = bytes 50..69.  The claim asks for
    AuthenticationFailed after any single-bit flip; the code accepts a
    flipped bit of CT and a flipped bit of AAD (and, with a 13-byte IV, a
    flipped bit of the IV), and returns the plaintext altered accordingly. *)
Theorem C2_flipped_ct_aad_iv_accepted :
  let iv := bytes_from 1 12 in
  let iv13 := bytes_from 1 13 in
  let aad := bytes_from 100 3 in
  let pt := bytes_from 50 20 in
  let e := AES_GCM_encrypt aes_h ctx_ramp (Some iv) 12 (Some aad) 3 (Some pt)
             (Some (zeros 20)) 20 (Some (zeros 16)) in
  let e13 := AES_GCM_encrypt aes_h ctx_ramp (Some iv13) 13 (Some aad) 3 (Some pt)
               (Some (zeros 20)) 20 (Some (zeros 16)) in
  let CT := deref (snd (fst e)) in
  let Tag := deref (snd e) in
  fst (fst e) = Success /\ fst (fst e13) = Success /\
  AES_GCM_decrypt aes_h ctx_ramp (Some iv) 12 (Some aad) 3 (Some (flip_bit CT 0 0))
    (Some (zeros 20)) 20 (Some Tag)
  = {| dec_rc := Success; dec_pt := Some (flip_bit pt 0 0);
       dec_pt_stores := [flip_bit CT 0 0; flip_bit pt 0 0] |} /\
  AES_GCM_decrypt aes_h ctx_ramp (Some iv) 12 (Some (flip_bit aad 2 7)) 3 (Some CT)
    (Some (zeros 20)) 20 (Some Tag)
  = {| dec_rc := Success; dec_pt := Some pt; dec_pt_stores := [CT; pt] |} /\
  AES_GCM_decrypt aes_h ctx_ramp (Some (flip_bit iv13 5 3)) 13 (Some aad) 3 (snd (fst e13))
    (Some (zeros 20)) 20 (snd e13)
  = {| dec_rc := Success; dec_pt := Some pt;
       dec_pt_stores := [deref (snd (fst e13)); pt] |}.
Proof. vm_compute. repeat split; reflexivity. Qed.

(** ** Counter mode against the specification *)

(** C3 on the build of aes.h, round keys of [ctx_ramp], C = 0^120 || 0x01
    and a 20-byte zero buffer.  The claim asks for the buffer XORed with
    AES_K(C) and AES_K(C+1); the code XORs it with the counter blocks C+1
    and C+2 themselves. *)
Theorem C3_keystream_is_unencrypted_counter :
  let RK := RoundKey ctx_ramp in
  let C := zeros 15 ++ [1%Z] in
  let B := zeros 20 in
  snd (AES_CTR_xcrypt_buffer aes_h RK C B 20)
    = take 20 (counter_after 1 C ++ counter_after 2 C) /\
  snd (AES_CTR_xcrypt_buffer aes_h RK C B 20) = zeros 15 ++ [2%Z] ++ zeros 4 /\
  Spec.CTR_xcrypt aes_h RK C B 20
    = take 20 (Cipher aes_h C RK ++ Cipher aes_h (Spec.counter_add C 1) RK) /\
  Spec.CTR_xcrypt aes_h RK C B 20
    = [103; 181; 156; 124; 131; 185; 52; 254; 249; 72; 1; 157; 172; 138; 205; 10;
       197; 24; 135; 54]%Z /\
  snd (AES_CTR_xcrypt_buffer aes_h RK C B 20) <> Spec.CTR_xcrypt aes_h RK C B 20 /\
  fst (AES_CTR_xcrypt_buffer aes_h RK C B 20) = Spec.counter_add C 2.
Proof. vm_compute. repeat split; try reflexivity. discriminate. Qed.

(** ** J0 against the specification *)

(** C5 on the build of aes.h, context [ctx_ramp], IV = CA FE (2 bytes).
    The claim asks for J0 = GHASH(H, IV padded || 0^64 || be64(16)); in
    the code the second [ghash_update] is over an all-zero block (the IV
    length is stored past the end of [len_block]), and J0 is zero. *)
Theorem C5_J0_for_other_iv_lengths :
  let H := Cipher aes_h (zeros 16) (RoundKey ctx_ramp) in
  let IV := [0xCA; 0xFE]%Z in
  (forall iv_len, iv_len_block iv_len = zeros 16) /\
  (forall iv_len, stores_in_bounds (zeros 16) 8
                    (encode_length (u64 (Z.of_nat iv_len * 8))) = false) /\
  iv_len_block 2 <> zeros 8 ++ Spec.be64 (Z.of_nat 2 * 8) /\
  gcm_J0 aes_h ctx_ramp IV 2 = zeros 16 /\
  Spec.J0_ghash H IV 2
    = [77; 129; 240; 78; 102; 104; 133; 53; 105; 87; 214; 209; 128; 190; 45; 55]%Z /\
  gcm_J0 aes_h ctx_ramp IV 2 <> Spec.J0_ghash H IV 2.
Proof.
  intros H IV.
  split; [exact iv_len_block_eq|]. split; [reflexivity|]. split; [discriminate|].
  assert (Hcode : gcm_J0 aes_h ctx_ramp IV 2 = zeros 16)
    by (apply gcm_J0_not_12; discriminate).
  assert (Hspec : Spec.J0_ghash H IV 2
    = [77; 129; 240; 78; 102; 104; 133; 53; 105; 87; 214; 209; 128; 190; 45; 55]%Z)
    by (vm_compute; reflexivity).
  split; [exact Hcode|]. split; [exact Hspec|].
  rewrite Hcode, Hspec. discriminate.
Qed.

(** * Further properties of the code

    Properties of functions that the statements above use without
    describing them: the comparison, the counter, the length encoding, the
    counter mode, the key schedule and the block cipher. *)


(** ** Constant-time comparison *)

Lemma first_difference (a b : list Z) (n : nat) :
  (forall i, i < n -> peek a i = peek b i) \/ (exists i, i < n /\ peek a i <> peek b i).
Proof.
  induction n as [|n [IH|[i [Hi Hne]]]].
  - left. intros i Hi. lia.
  - destruct (Z.eq_dec (peek a n) (peek b n)) as [Heq|Hne].
    + left. intros i Hi. destruct (decide (i = n)) as [->|]; [exact Heq | apply IH; lia].
    + right. exists n. split; [lia | exact Hne].
  - right. exists i. split; [lia | exact Hne].
Qed.

(** X1: [constant_time_memcmp] returns 0 when the first [num] bytes of the two
    arrays are equal and 1 when some byte among them differs; it returns
    nothing else. *)
Theorem constant_time_memcmp_result (a b : list Z) (num : nat) :
  (constant_time_memcmp a b num = 0%Z /\ forall i, i < num -> peek a i = peek b i) \/
  (constant_time_memcmp a b num = 1%Z /\ exists i, i < num /\ peek a i <> peek b i).
Proof.
  destruct (first_difference a b num) as [Heq|Hne].
  - left. split; [apply constant_time_memcmp_0, Heq | exact Heq].
  - right. split; [|exact Hne].
    destruct (constant_time_memcmp_cases a b num) as [H0|H1]; [|exact H1].
    destruct Hne as [i [Hi Hne]]. exfalso. apply Hne.
    exact (proj1 (constant_time_memcmp_0 a b num) H0 i Hi).
Qed.

(** ** Counter increment *)

Local Open Scope Z_scope.

(** X2: [increment_counter_j0] adds one, modulo 2^32, to the big-endian value
    of the last four bytes of a counter block, and leaves the first twelve
    bytes as they are. *)
Theorem increment_counter_j0_be32 (C : list Z) :
  counter_block C ->
  take 12 (increment_counter_j0 C) = take 12 C /\
  Spec.be32 (drop 12 (increment_counter_j0 C)) = (Spec.be32 (drop 12 C) + 1) mod 2 ^ 32 /\
  counter_block (increment_counter_j0 C).
Proof.
  intros HC. unfold increment_counter_j0. change (AES_BLOCKLEN - 1)%nat with 15%nat.
  destruct (increment_tail_spec C HC) as [-> Hblk].
  split; [|split; [|exact Hblk]].
  - unfold Spec.counter_add. destruct HC as [HC _].
    rewrite take_app_length'; [reflexivity|]. rewrite length_take. lia.
  - unfold Spec.counter_add. destruct HC as [HC _].
    rewrite drop_app_length' by (rewrite length_take; lia).
    set (v := (Spec.be32 (drop 12 C) + 1) mod 2 ^ 32).
    unfold Spec.be32 at 1. cbn [peek lookup list_lookup default id].
    apply bytes_be32. apply Z.mod_pos_bound. lia.
Qed.

(** On a counter whose last four bytes are all 0xff: the increment wraps. *)
Lemma increment_counter_j0_be32_witness :
  let C := zeros 12 ++ [255; 255; 255; 255] in
  counter_block C /\
  take 12 (increment_counter_j0 C) = take 12 C /\
  Spec.be32 (drop 12 (increment_counter_j0 C)) = (Spec.be32 (drop 12 C) + 1) mod 2 ^ 32 /\
  counter_block (increment_counter_j0 C).
Proof.
  intros C.
  assert (HC : counter_block C).
  { split; [reflexivity|]. repeat (apply Forall_cons; split; [unfold is_byte; lia|]).
    apply Forall_nil_2. }
  split; [exact HC|]. apply (increment_counter_j0_be32 C). exact HC.
Defined.

(** ** Length encoding *)

(** X3: The eight bytes [encode_length] stores are the big-endian encoding of
    the length: called on the start of a 16-byte block it stays in bounds,
    leaves bytes 0..7 as they are, and bytes 8..15 decode to [len_bits]. *)
Theorem encode_length_round_trip (len_bits : Z) (block : list Z) :
  0 <= len_bits < 2 ^ 64 -> length block = 16%nat ->
  let block' := stores_at block 0 (encode_length len_bits) in
  stores_in_bounds block 0 (encode_length len_bits) = true /\
  length block' = 16%nat /\
  take 8 block' = take 8 block /\
  Forall is_byte (drop 8 block') /\
  be_value (drop 8 block') = len_bits.
Proof.
  intros Hn Hb. do 17 (destruct block as [|? block]; try discriminate Hb).
  cbv zeta. split; [reflexivity|]. split; [reflexivity|]. split; [reflexivity|].
  cbn [stores_at encode_length fold_left Nat.add insert list_insert drop].
  split.
  - repeat (apply Forall_cons; split; [apply u8_is_byte|]). apply Forall_nil_2.
  - unfold be_value. cbn [fold_left]. unfold u8. rewrite !Z.shiftr_div_pow2 by lia.
    change (2 ^ 64) with 18446744073709551616 in Hn.
    change (2 ^ 56) with 72057594037927936. change (2 ^ 48) with 281474976710656.
    change (2 ^ 40) with 1099511627776. change (2 ^ 32) with 4294967296.
    change (2 ^ 24) with 16777216. change (2 ^ 16) with 65536. change (2 ^ 8) with 256.
    Z.div_mod_to_equations. lia.
Qed.

(** On the largest multiple of 8 below 2^64. *)
Lemma encode_length_round_trip_witness :
  let block := bytes_from 1 16 in
  (0 <= 2 ^ 64 - 8 < 2 ^ 64 /\ length block = 16%nat) /\
  let block' := stores_at block 0 (encode_length (2 ^ 64 - 8)) in
  stores_in_bounds block 0 (encode_length (2 ^ 64 - 8)) = true /\
  length block' = 16%nat /\
  take 8 block' = take 8 block /\
  Forall is_byte (drop 8 block') /\
  be_value (drop 8 block') = 2 ^ 64 - 8.
Proof.
  intros block.
  assert (H1 : 0 <= 2 ^ 64 - 8 < 2 ^ 64) by lia.
  assert (H2 : length block = 16%nat) by reflexivity.
  split; [split; assumption|].
  apply (encode_length_round_trip (2 ^ 64 - 8) block); assumption.
Defined.

Local Close Scope Z_scope.

(** ** Counter mode *)

Section CTR_more.
Variable f : build_flags.
Variable RK : list Z.

Lemma CTR_loop_fst_refill (b : Z) (rest counter buffer : list Z) :
  fst (CTR_loop f RK (b :: rest) AES_BLOCKLEN counter buffer)
  = let counter' := increment_tail 4 (AES_BLOCKLEN - 1) counter in
    let buffer' := memcpy (Cipher f buffer RK) counter' AES_BLOCKLEN in
    fst (CTR_loop f RK rest 1 counter' buffer').
Proof.
  cbn [CTR_loop]. rewrite Nat.eqb_refl. cbv zeta.
  destruct (CTR_loop f RK rest 1 _ _) as [c' out]. reflexivity.
Qed.

Lemma CTR_loop_fst_inside (b : Z) (rest : list Z) (bi : nat) (counter buffer : list Z) :
  bi <> AES_BLOCKLEN ->
  fst (CTR_loop f RK (b :: rest) bi counter buffer)
  = fst (CTR_loop f RK rest (S bi) counter buffer).
Proof.
  intros Hbi. cbn [CTR_loop]. apply Nat.eqb_neq in Hbi. rewrite Hbi.
  destruct (CTR_loop f RK rest (S bi) counter buffer) as [c' out]. reflexivity.
Qed.

Lemma CTR_loop_fst (bytes : list Z) :
  forall (bi : nat) (counter buffer : list Z),
  1 <= bi <= 16 ->
  fst (CTR_loop f RK bytes bi counter buffer)
  = counter_after ((bi + length bytes + 15) / 16 - 1) counter.
Proof.
  induction bytes as [|b rest IH]; intros bi counter buffer Hbi.
  - cbn [CTR_loop fst length]. rewrite Nat.add_0_r.
    replace ((bi + 15) / 16) with 1; [reflexivity|].
    apply Nat.div_unique with (r := bi + 15 - 16); lia.
  - destruct (Nat.eq_dec bi AES_BLOCKLEN) as [->|Hne].
    + rewrite CTR_loop_fst_refill. cbv zeta. rewrite IH by lia.
      cbn [length]. unfold AES_BLOCKLEN.
      replace (16 + S (length rest) + 15) with (2 * 16 + length rest) by lia.
      replace (1 + length rest + 15) with (1 * 16 + length rest) by lia.
      rewrite !Nat.div_add_l by lia.
      generalize (length rest / 16). intros q.
      cbn [Nat.add Nat.sub]. rewrite Nat.sub_0_r.
      unfold counter_after. now rewrite Nat.iter_succ_r.
    + rewrite CTR_loop_fst_inside by exact Hne. unfold AES_BLOCKLEN in Hne.
      rewrite IH by lia. cbn [length]. replace (S bi + length rest) with (bi + S (length rest)) by lia. reflexivity.
Qed.

(** X4: Applying [AES_CTR_xcrypt_buffer] twice from the same counter block
    gives back the buffer. *)
Theorem AES_CTR_xcrypt_buffer_involutive (C buf : list Z) (n : nat) :
  snd (AES_CTR_xcrypt_buffer f RK C (snd (AES_CTR_xcrypt_buffer f RK C buf n)) n) = buf.
Proof.
  rewrite !AES_CTR_xcrypt_buffer_bytes.
  set (X := CTR_bytes f RK C (take n buf)).
  assert (HX : length X = length (take n buf)) by apply CTR_bytes_length.
  rewrite length_take in HX.
  destruct (Nat.le_gt_cases n (length buf)) as [Hle|Hgt].
  - rewrite take_app_length', drop_app_length' by lia.
    unfold X. rewrite CTR_bytes_involutive. apply take_drop.
  - rewrite (drop_ge buf n) by lia. rewrite app_nil_r.
    rewrite (take_ge X) by lia. rewrite (drop_ge X) by lia.
    unfold X. rewrite CTR_bytes_involutive. rewrite app_nil_r. apply take_ge. lia.
Qed.

(** X5: [AES_CTR_xcrypt_buffer] keeps the size of the buffer and changes no
    byte from index [length] on; with [length = 0] buffer and counter block
    are left as they are. *)
Theorem AES_CTR_xcrypt_buffer_frame (C buf : list Z) (n : nat) :
  length (snd (AES_CTR_xcrypt_buffer f RK C buf n)) = length buf /\
  (forall i, n <= i -> peek (snd (AES_CTR_xcrypt_buffer f RK C buf n)) i = peek buf i) /\
  AES_CTR_xcrypt_buffer f RK C buf 0 = (C, buf).
Proof.
  rewrite AES_CTR_xcrypt_buffer_bytes.
  set (X := CTR_bytes f RK C (take n buf)).
  assert (HX : length X = length (take n buf)) by apply CTR_bytes_length.
  rewrite length_take in HX.
  split; [|split].
  - rewrite length_app, length_drop. lia.
  - intros i Hi. unfold peek. f_equal.
    destruct (Nat.le_gt_cases n (length buf)) as [Hle|Hgt].
    + rewrite lookup_app_r by lia. rewrite lookup_drop. f_equal. lia.
    + rewrite (drop_ge buf n) by lia. rewrite app_nil_r.
      rewrite !lookup_ge_None_2 by lia. reflexivity.
  - unfold AES_CTR_xcrypt_buffer. rewrite take_0, drop_0. reflexivity.
Qed.

(** X6: After [length] bytes the counter block has been incremented once per
    block started: its last four bytes, as a big-endian integer, have
    advanced by ceil(length / 16) modulo 2^32. *)
Theorem AES_CTR_xcrypt_buffer_counter (C buf : list Z) (n : nat) :
  counter_block C -> n <= length buf ->
  fst (AES_CTR_xcrypt_buffer f RK C buf n) = Spec.counter_add C (Z.of_nat ((n + 15) / 16)).
Proof.
  intros HC Hn. unfold AES_CTR_xcrypt_buffer.
  pose proof (CTR_loop_fst (take n buf) AES_BLOCKLEN C
                (memcpy (zeros AES_BLOCKLEN) C AES_BLOCKLEN)) as Hfst.
  destruct (CTR_loop f RK (take n buf) AES_BLOCKLEN C _) as [c' out].
  cbn [fst] in *. rewrite Hfst by (unfold AES_BLOCKLEN; lia).
  rewrite length_take, Nat.min_l by exact Hn. unfold AES_BLOCKLEN.
  replace (16 + n + 15) with (1 * 16 + (n + 15)) by lia.
  rewrite Nat.div_add_l by lia.
  generalize ((n + 15) / 16). intros q.
  cbn [Nat.add Nat.sub]. rewrite Nat.sub_0_r.
  apply counter_after_spec, HC.
Qed.
End CTR_more.

(** On 33 bytes, that is three blocks started, with a carry into byte 13. *)
Lemma AES_CTR_xcrypt_buffer_counter_witness :
  let C := zeros 12 ++ [0; 0; 255; 255]%Z in
  (counter_block C /\ 33 <= length (bytes_from 0 40)) /\
  fst (AES_CTR_xcrypt_buffer aes_h (RoundKey ctx_ramp) C (bytes_from 0 40) 33)
  = Spec.counter_add C (Z.of_nat ((33 + 15) / 16)).
Proof.
  intros C.
  assert (HC : counter_block C).
  { split; [reflexivity|]. repeat (apply Forall_cons; split; [unfold is_byte; lia|]).
    apply Forall_nil_2. }
  assert (Hn : 33 <= length (bytes_from 0 40)) by (cbv; lia).
  split; [split; assumption|].
  apply (AES_CTR_xcrypt_buffer_counter aes_h (RoundKey ctx_ramp) C (bytes_from 0 40) 33);
    assumption.
Defined.

(** ** The two entry points *)

Section GCM_more.
Variable f : build_flags.
Variable ctx : AES_ctx.

Lemma length_gcm_tag (iv : list Z) (iv_len : nat) (aad : list Z) (aad_len : nat)
    (text : list Z) (text_len : nat) :
  length (gcm_tag f ctx iv iv_len aad aad_len text text_len) = 16.
Proof. apply length_xor_tag. Qed.

(** X7: Once [AES_GCM_decrypt] has accepted a tag, it accepts, on the same
    other arguments, exactly the tags that agree with it on the first 16
    bytes, and answers AuthenticationFailed to every other one. *)
Theorem AES_GCM_decrypt_accepts_one_tag (iv : ptr) (iv_len : nat) (aad : ptr) (aad_len : nat)
    (ct pt : ptr) (ct_len : nat) (tag tag' : list Z) :
  dec_rc (AES_GCM_decrypt f ctx iv iv_len aad aad_len ct pt ct_len (Some tag)) = Success ->
  (dec_rc (AES_GCM_decrypt f ctx iv iv_len aad aad_len ct pt ct_len (Some tag')) = Success
   <-> forall i, i < AES_GCM_TAG_LEN -> peek tag' i = peek tag i) /\
  (dec_rc (AES_GCM_decrypt f ctx iv iv_len aad aad_len ct pt ct_len (Some tag')) = Success \/
   dec_rc (AES_GCM_decrypt f ctx iv iv_len aad aad_len ct pt ct_len (Some tag'))
   = AuthenticationFailed).
Proof.
  intros Hok.
  destruct (arg_check iv_len aad aad_len ct pt ct_len (Some tag)) eqn:Hchk.
  { rewrite AES_GCM_decrypt_invalid in Hok by exact Hchk. discriminate. }
  assert (Hchk' : arg_check iv_len aad aad_len ct pt ct_len (Some tag') = false) by exact Hchk.
  split; [|apply AES_GCM_decrypt_rc; exact Hchk'].
  rewrite AES_GCM_decrypt_run in Hok |- * by assumption. rewrite deref_Some in *.
  set (T := gcm_tag f ctx (deref iv) iv_len (deref aad) aad_len (deref ct) ct_len) in *.
  destruct (Z.eqb_spec (constant_time_memcmp T tag AES_GCM_TAG_LEN) 0) as [Heq|Hne];
    [|discriminate Hok].
  pose proof (proj1 (constant_time_memcmp_0 _ _ _) Heq) as HT.
  destruct (Z.eqb_spec (constant_time_memcmp T tag' AES_GCM_TAG_LEN) 0) as [Heq'|Hne'].
  - pose proof (proj1 (constant_time_memcmp_0 _ _ _) Heq') as HT'.
    split.
    + intros _ i Hi. rewrite <- HT, <- HT' by exact Hi. reflexivity.
    + intros _. cbn [negb]. destruct (0 <? ct_len); reflexivity.
  - split; [discriminate|].
    intros Hag. exfalso. apply Hne'. apply constant_time_memcmp_0.
    intros i Hi. rewrite Hag, HT by exact Hi. reflexivity.
Qed.

(** X8: A successful [AES_GCM_encrypt] writes [pt_len] bytes of the ciphertext
    buffer and 16 bytes of the tag buffer and nothing else; with
    [pt_len = 0] the ciphertext buffer is left as it is. *)
Theorem AES_GCM_encrypt_frame (iv : ptr) (iv_len : nat) (aad : ptr) (aad_len : nat)
    (pt ct0 : ptr) (pt_len : nat) (tag0 CT Tag : ptr) :
  valid_buf ct0 pt_len -> valid_buf tag0 AES_GCM_TAG_LEN ->
  AES_GCM_encrypt f ctx iv iv_len aad aad_len pt ct0 pt_len tag0 = (Success, CT, Tag) ->
  length (deref CT) = length (deref ct0) /\
  drop pt_len (deref CT) = drop pt_len (deref ct0) /\
  length (deref Tag) = length (deref tag0) /\
  drop AES_GCM_TAG_LEN (deref Tag) = drop AES_GCM_TAG_LEN (deref tag0) /\
  (pt_len = 0 -> CT = ct0).
Proof.
  intros Hct Htag Henc.
  destruct (arg_check iv_len aad aad_len pt ct0 pt_len tag0) eqn:Hchk.
  { rewrite AES_GCM_encrypt_invalid in Henc by exact Hchk. discriminate. }
  rewrite AES_GCM_encrypt_run in Henc by exact Hchk. cbv zeta in Henc.
  assert (HCT : CT = Some (encrypt_ct f ctx (deref iv) iv_len (deref pt) (deref ct0) pt_len))
    by congruence.
  assert (HTag : Tag = Some (gcm_tag f ctx (deref iv) iv_len (deref aad) aad_len
                               (encrypt_ct f ctx (deref iv) iv_len (deref pt) (deref ct0) pt_len)
                               pt_len ++ drop AES_GCM_TAG_LEN (deref tag0)))
    by congruence.
  clear Henc. subst CT Tag. rewrite !deref_Some.
  unfold arg_check in Hchk. apply orb_false_iff in Hchk as [Hchk Hnt].
  apply orb_false_iff in Hchk as [_ Hnc].
  destruct ct0 as [c0|]; [|discriminate Hnc]. destruct tag0 as [t0|]; [|discriminate Hnt].
  simpl in Hct, Htag. rewrite !deref_Some.
  unfold AES_GCM_TAG_LEN in *. unfold encrypt_ct. destruct (Nat.ltb_spec 0 pt_len) as [Hpos|Hzero].
  - rewrite take_memcpy, drop_memcpy.
    set (X := CTR_bytes f (RoundKey ctx) _ _).
    assert (HX : length X = pt_len)
      by (unfold X; now rewrite CTR_bytes_length, length_map, length_seq).
    split; [|split; [|split; [|split]]].
    + rewrite length_app, length_drop. lia.
    + now rewrite drop_app_length' by lia.
    + rewrite length_app, length_drop, length_gcm_tag. lia.
    + now rewrite drop_app_length' by (now rewrite length_gcm_tag).
    + lia.
  - split; [|split; [|split; [|split]]]; try reflexivity.
    rewrite length_app, length_drop, length_gcm_tag. lia.
Qed.

(** X9: What [AES_GCM_decrypt] accepts, [AES_GCM_encrypt] reproduces: if
    decryption of (CT, Tag) succeeds with plaintext PT, then encryption of
    PT under the same context, IV and AAD succeeds with the first [ct_len]
    bytes of CT and the first 16 bytes of Tag. *)
Theorem AES_GCM_decrypt_then_encrypt (iv : ptr) (iv_len : nat) (aad : ptr) (aad_len : nat)
    (ct pt0 : ptr) (ct_len : nat) (tag ct0 tag0 : ptr) :
  valid_buf ct ct_len -> valid_buf tag AES_GCM_TAG_LEN ->
  ct0 <> None -> tag0 <> None ->
  let d := AES_GCM_decrypt f ctx iv iv_len aad aad_len ct pt0 ct_len tag in
  dec_rc d = Success ->
  let e := AES_GCM_encrypt f ctx iv iv_len aad aad_len (dec_pt d) ct0 ct_len tag0 in
  fst (fst e) = Success /\
  take ct_len (deref (snd (fst e))) = take ct_len (deref ct) /\
  take AES_GCM_TAG_LEN (deref (snd e)) = take AES_GCM_TAG_LEN (deref tag).
Proof.
  intros Hct Htag Hct0 Htag0 d Hok e. subst d e.
  destruct (arg_check iv_len aad aad_len ct pt0 ct_len tag) eqn:Hchk.
  { rewrite AES_GCM_decrypt_invalid in Hok by exact Hchk. discriminate. }
  rewrite AES_GCM_decrypt_run in Hok |- * by exact Hchk.
  set (T := gcm_tag f ctx (deref iv) iv_len (deref aad) aad_len (deref ct) ct_len) in *.
  destruct (Z.eqb_spec (constant_time_memcmp T (deref tag) AES_GCM_TAG_LEN) 0) as [Heq|Hne];
    [|discriminate Hok].
  cbn [negb]. cbv iota. clear Hok.
  pose proof (proj1 (constant_time_memcmp_0 _ _ _) Heq) as HT.
  unfold arg_check in Hchk. apply orb_false_iff in Hchk as [Hchk Hnt].
  apply orb_false_iff in Hchk as [Hchk Hnp].
  apply orb_false_iff in Hchk as [Hchk Hnc].
  apply orb_false_iff in Hchk as [Hiv Haad].
  destruct pt0 as [p0|]; [|discriminate Hnp].
  destruct tag as [tg|]; [|discriminate Hnt].
  simpl in Htag. rewrite !deref_Some in *.
  assert (Htake : take AES_GCM_TAG_LEN T = take AES_GCM_TAG_LEN tg).
  { apply list_eq_peek.
    - rewrite !length_take. unfold T, gcm_tag. rewrite length_xor_tag. lia.
    - intros i Hi. rewrite length_take in Hi. unfold T, gcm_tag in Hi.
      rewrite length_xor_tag in Hi.
      rewrite !peek_take by lia. apply HT. lia. }
  assert (HTlen : length T = AES_GCM_TAG_LEN) by apply length_xor_tag.
  assert (HTT : forall text n,
            gcm_tag f ctx (deref iv) iv_len (deref aad) aad_len text n = T)
    by (intros; apply gcm_tag_ignores_data).
  destruct (Nat.ltb_spec 0 ct_len) as [Hpos|Hzero].
  - cbv zeta. cbn [dec_pt].
    set (PT := CTR_bytes f (RoundKey ctx) (gcm_counter f ctx (deref iv) iv_len)
                 (take ct_len (memcpy p0 (deref ct) ct_len))
               ++ drop ct_len (memcpy p0 (deref ct) ct_len)).
    assert (Hchk' : arg_check iv_len aad aad_len (Some PT) ct0 ct_len tag0 = false).
    { unfold arg_check. rewrite Hiv, Haad. destruct ct0, tag0; try congruence. reflexivity. }
    rewrite AES_GCM_encrypt_run by exact Hchk'. cbv zeta. cbn [fst snd]. rewrite !deref_Some.
    split; [reflexivity|].
    assert (Hvalid : ct_len <= length (deref ct)).
    { destruct ct as [c|]; simpl in *; [exact Hct | lia]. }
    split.
    + unfold encrypt_ct. destruct (Nat.ltb_spec 0 ct_len) as [_|Habs]; [|lia].
      rewrite take_memcpy.
      assert (HPT : map (peek PT) (seq 0 ct_len)
                    = CTR_bytes f (RoundKey ctx) (gcm_counter f ctx (deref iv) iv_len)
                        (map (peek (deref ct)) (seq 0 ct_len))).
      { unfold PT. rewrite take_memcpy.
        set (X := CTR_bytes f (RoundKey ctx) _ _).
        assert (HX : length X = ct_len)
          by (unfold X; now rewrite CTR_bytes_length, length_map, length_seq).
        pose proof (map_peek_app_l X (drop ct_len (memcpy p0 (deref ct) ct_len))) as HH.
        rewrite HX in HH. exact HH. }
      rewrite HPT, CTR_bytes_involutive.
      rewrite take_app_length' by (now rewrite length_map, length_seq).
      apply map_peek_take, Hvalid.
    + rewrite HTT. rewrite take_app_length' by (symmetry; exact HTlen).
      rewrite <- Htake. symmetry. apply take_ge. lia.
  - assert (ct_len = 0) as -> by lia. cbn [dec_pt].
    assert (Hchk' : arg_check iv_len aad aad_len (Some p0) ct0 0 tag0 = false).
    { unfold arg_check. rewrite Hiv, Haad. destruct ct0, tag0; try congruence. reflexivity. }
    rewrite AES_GCM_encrypt_run by exact Hchk'. cbv zeta. cbn [fst snd]. rewrite !deref_Some.
    split; [reflexivity|]. split; [now rewrite !take_0|].
    rewrite HTT. rewrite take_app_length' by (symmetry; exact HTlen).
    rewrite <- Htake. symmetry. apply take_ge. lia.
Qed.
End GCM_more.

(** On a 12-byte IV, one byte of AAD and two bytes of text: the tag that
    encryption produced, followed by one more byte, is accepted. *)
Lemma AES_GCM_decrypt_accepts_one_tag_witness :
  let iv := Some (bytes_from 1 12) in
  let aad := Some [1%Z] in
  let e := AES_GCM_encrypt aes_h ctx_ramp iv 12 aad 1 (Some [2%Z; 3%Z]) (Some (zeros 2)) 2
             (Some (zeros 16)) in
  let ct := snd (fst e) in
  let pt := Some (zeros 2) in
  let tag := deref (snd e) in
  let tag' := tag ++ [9%Z] in
  dec_rc (AES_GCM_decrypt aes_h ctx_ramp iv 12 aad 1 ct pt 2 (Some tag)) = Success /\
  (dec_rc (AES_GCM_decrypt aes_h ctx_ramp iv 12 aad 1 ct pt 2 (Some tag')) = Success
   <-> forall i, i < AES_GCM_TAG_LEN -> peek tag' i = peek tag i) /\
  (dec_rc (AES_GCM_decrypt aes_h ctx_ramp iv 12 aad 1 ct pt 2 (Some tag')) = Success \/
   dec_rc (AES_GCM_decrypt aes_h ctx_ramp iv 12 aad 1 ct pt 2 (Some tag'))
   = AuthenticationFailed).
Proof.
  intros iv aad e ct pt tag tag'.
  assert (H : dec_rc (AES_GCM_decrypt aes_h ctx_ramp iv 12 aad 1 ct pt 2 (Some tag)) = Success)
    by (vm_compute; reflexivity).
  split; [exact H|].
  exact (AES_GCM_decrypt_accepts_one_tag aes_h ctx_ramp iv 12 aad 1 ct pt 2 tag tag' H).
Defined.

(** On a 24-byte ciphertext buffer and an 18-byte tag buffer, with 20 bytes
    of plaintext. *)
Lemma AES_GCM_encrypt_frame_witness :
  let iv := Some (bytes_from 1 12) in
  let aad := Some (bytes_from 100 3) in
  let pt := Some (bytes_from 50 20) in
  let ct0 := Some (replicate 24 7%Z) in
  let tag0 := Some (replicate 18 5%Z) in
  let e := AES_GCM_encrypt aes_h ctx_ramp iv 12 aad 3 pt ct0 20 tag0 in
  let CT := snd (fst e) in
  let Tag := snd e in
  (valid_buf ct0 20 /\ valid_buf tag0 AES_GCM_TAG_LEN /\ e = (Success, CT, Tag)) /\
  length (deref CT) = length (deref ct0) /\
  drop 20 (deref CT) = drop 20 (deref ct0) /\
  length (deref Tag) = length (deref tag0) /\
  drop AES_GCM_TAG_LEN (deref Tag) = drop AES_GCM_TAG_LEN (deref tag0) /\
  (20 = 0 -> CT = ct0).
Proof.
  intros iv aad pt ct0 tag0 e CT Tag.
  assert (H1 : valid_buf ct0 20) by (cbv; lia).
  assert (H2 : valid_buf tag0 AES_GCM_TAG_LEN) by (cbv; lia).
  assert (H3 : e = (Success, CT, Tag)) by (vm_compute; reflexivity).
  split; [exact (conj H1 (conj H2 H3))|].
  exact (AES_GCM_encrypt_frame aes_h ctx_ramp iv 12 aad 3 pt ct0 20 tag0 CT Tag H1 H2 H3).
Defined.

(** On the output of an encryption of 20 bytes. *)
Lemma AES_GCM_decrypt_then_encrypt_witness :
  let iv := Some (bytes_from 1 12) in
  let aad := Some (bytes_from 100 3) in
  let e0 := AES_GCM_encrypt aes_h ctx_ramp iv 12 aad 3 (Some (bytes_from 50 20))
              (Some (zeros 20)) 20 (Some (zeros 16)) in
  let ct := snd (fst e0) in
  let tag := snd e0 in
  let pt0 := Some (zeros 20) in
  let ct0 := Some (replicate 20 7%Z) in
  let tag0 := Some (replicate 16 5%Z) in
  let d := AES_GCM_decrypt aes_h ctx_ramp iv 12 aad 3 ct pt0 20 tag in
  (valid_buf ct 20 /\ valid_buf tag AES_GCM_TAG_LEN /\ ct0 <> None /\ tag0 <> None /\
   dec_rc d = Success) /\
  let e := AES_GCM_encrypt aes_h ctx_ramp iv 12 aad 3 (dec_pt d) ct0 20 tag0 in
  fst (fst e) = Success /\
  take 20 (deref (snd (fst e))) = take 20 (deref ct) /\
  take AES_GCM_TAG_LEN (deref (snd e)) = take AES_GCM_TAG_LEN (deref tag).
Proof.
  intros iv aad e0 ct tag pt0 ct0 tag0 d.
  assert (H1 : valid_buf ct 20) by (vm_compute; lia).
  assert (H2 : valid_buf tag AES_GCM_TAG_LEN) by (vm_compute; lia).
  assert (H3 : ct0 <> None) by discriminate.
  assert (H4 : tag0 <> None) by discriminate.
  assert (H5 : dec_rc d = Success) by (vm_compute; reflexivity).
  split; [exact (conj H1 (conj H2 (conj H3 (conj H4 H5))))|].
  exact (AES_GCM_decrypt_then_encrypt aes_h ctx_ramp iv 12 aad 3 ct pt0 20 tag ct0 tag0
           H1 H2 H3 H4 H5).
Defined.

(** ** Key schedule: what it reads and what it writes *)



(** The loads [RoundKey[k + c]] of word [i - Nk] are not disturbed by the
    stores into word [i] that precede them. *)
Lemma KeyExpansion_word_split (f : build_flags) (i : nat) (RoundKey : list Z) :
  1 <= Nk f <= i ->
  KeyExpansion_word f i RoundKey
  = w ← KeyExpansion_word_bytes f i RoundKey; Some (store_word i w RoundKey).
Proof.
  intros HNk. unfold KeyExpansion_word, KeyExpansion_word_bytes, store_word.
  destruct (i mod Nk f =? 0); [destruct (Rcon !! Rcon_index f i)|];
    cbn [mbind option_bind]; try reflexivity;
    destruct ((6 <? Nk f) && (i mod Nk f =? 4)); cbv zeta;
    rewrite !peek_insert_ne by lia; reflexivity.
Qed.



Lemma store_word_frame (i : nat) (w : Z * Z * Z * Z) (a : list Z) :
  length (store_word i w a) = length a /\
  forall k, k < 4 * i -> peek (store_word i w a) k = peek a k.
Proof.
  destruct w as [[[b0 b1] b2] b3]. unfold store_word. split.
  - now rewrite !length_insert.
  - intros k Hk. rewrite !peek_insert_ne by lia. reflexivity.
Qed.

Lemma KeyExpansion_word_bytes_Some (f : build_flags) (i : nat) (a : list Z) :
  Rcon_index f i <= 10 -> is_Some (KeyExpansion_word_bytes f i a).
Proof.
  intros Hidx. unfold KeyExpansion_word_bytes.
  destruct (lookup_lt_is_Some_2 Rcon (Rcon_index f i)) as [rc Hrc]; [simpl; lia|].
  rewrite Hrc.
  destruct (i mod Nk f =? 0); cbn [mbind option_bind];
    destruct ((6 <? Nk f) && (i mod Nk f =? 4)); eexists; reflexivity.
Qed.


Lemma KeyExpansion_words_frame (f : build_flags) (n : nat) :
  forall (lo : nat) (a a' : list Z),
  1 <= Nk f <= lo ->
  KeyExpansion_words f n lo a = Some a' ->
  length a' = length a /\ forall k, k < 4 * lo -> peek a' k = peek a k.
Proof.
  induction n as [|n IH]; intros lo a a' HNk Ha.
  - cbn [KeyExpansion_words] in Ha. injection Ha as <-. split; reflexivity.
  - cbn [KeyExpansion_words] in Ha. rewrite KeyExpansion_word_split in Ha by exact HNk.
    destruct (KeyExpansion_word_bytes f lo a) as [w|]; [|discriminate Ha].
    cbn [mbind option_bind] in Ha.
    assert (HNk' : 1 <= Nk f <= S lo) by lia.
    destruct (IH _ _ _ HNk' Ha) as [Hlen Hpk].
    destruct (store_word_frame lo w a) as [Hlen' Hpk'].
    split; [congruence|]. intros k Hk. rewrite Hpk by lia. apply Hpk'. exact Hk.
Qed.

Lemma KeyExpansion_words_Some (f : build_flags) (n : nat) :
  forall (lo : nat) (a : list Z),
  1 <= Nk f <= lo ->
  (forall i, lo <= i < lo + n -> Rcon_index f i <= 10) ->
  is_Some (KeyExpansion_words f n lo a).
Proof.
  induction n as [|n IH]; intros lo a HNk Hidx; [eexists; reflexivity|].
  cbn [KeyExpansion_words]. rewrite KeyExpansion_word_split by exact HNk.
  destruct (KeyExpansion_word_bytes_Some f lo a) as [w ->]; [apply Hidx; lia|].
  cbn [mbind option_bind]. apply IH; [lia|]. intros i Hi. apply Hidx. lia.
Qed.

Lemma KeyExpansion_copy_spec (f : build_flags) (RoundKey Key : list Z) :
  length (KeyExpansion_copy f RoundKey Key) = length RoundKey /\
  forall k, k < 4 * Nk f -> k < length RoundKey ->
            peek (KeyExpansion_copy f RoundKey Key) k = peek Key k.
Proof.
  unfold KeyExpansion_copy. generalize (Nk f). intros n.
  induction n as [|n [IHlen IHpk]]; [split; [reflexivity | intros; lia]|].
  rewrite for_range_snoc. cbn [Nat.add]. cbv zeta.
  set (rk := for_range 0 n _ RoundKey) in *.
  split; [now rewrite !length_insert|].
  intros k Hk Hlt.
  destruct (decide (k = n * 4 + 3)) as [->|H3];
    [now rewrite peek_insert_eq by (rewrite !length_insert; lia)|].
  rewrite peek_insert_ne by lia.
  destruct (decide (k = n * 4 + 2)) as [->|H2];
    [now rewrite peek_insert_eq by (rewrite !length_insert; lia)|].
  rewrite peek_insert_ne by lia.
  destruct (decide (k = n * 4 + 1)) as [->|H1];
    [now rewrite peek_insert_eq by (rewrite !length_insert; lia)|].
  rewrite peek_insert_ne by lia.
  destruct (decide (k = n * 4 + 0)) as [->|H0];
    [now rewrite peek_insert_eq by lia|].
  rewrite peek_insert_ne by lia. apply IHpk; lia.
Qed.

Lemma Nk_bounds (f : build_flags) : 1 <= Nk f <= Nb * (Nr f + 1) /\ 4 * (Nb * (Nr f + 1)) = AES_keyExpSize f.
Proof. destruct f as [[] [] [] []]; cbv; lia. Qed.

(** X10: In a build whose [Nk] is the key length in words, [KeyExpansion] reads
    no round constant outside the table: it yields a schedule for every
    key. *)
Theorem KeyExpansion_consistent_build (f : build_flags) (RoundKey0 Key : list Z) :
  consistent f -> is_Some (KeyExpansion f RoundKey0 Key).
Proof.
  intros Hc. unfold KeyExpansion. destruct (Nk_bounds f) as [HNk _].
  apply KeyExpansion_words_Some; [lia|].
  intros i Hi. apply Rcon_index_consistent; [exact Hc | lia].
Qed.

(** On the AES-128 build and the key of FIPS-197, appendix B. *)
Lemma KeyExpansion_consistent_build_witness :
  consistent aes128_only /\ is_Some (KeyExpansion aes128_only (zeros 176) fips_key).
Proof.
  assert (H : consistent aes128_only) by reflexivity.
  split; [exact H|].
  exact (KeyExpansion_consistent_build aes128_only (zeros 176) fips_key H).
Defined.

(** X11: The schedule has the size of the array it is written to, and its first
    [4 * Nk] bytes are the first [4 * Nk] bytes of the key. *)
Theorem KeyExpansion_starts_with_key (f : build_flags) (RoundKey0 Key s : list Z) :
  KeyExpansion f RoundKey0 Key = Some s ->
  4 * Nk f <= length RoundKey0 ->
  length s = length RoundKey0 /\ forall k, k < 4 * Nk f -> peek s k = peek Key k.
Proof.
  intros Hs Hlen. unfold KeyExpansion in Hs.
  destruct (Nk_bounds f) as [HNk _].
  assert (HNk' : 1 <= Nk f <= Nk f) by lia.
  destruct (KeyExpansion_words_frame f _ _ _ _ HNk' Hs) as [Hl Hpk].
  destruct (KeyExpansion_copy_spec f RoundKey0 Key) as [Hl' Hpk'].
  split; [congruence|]. intros k Hk. rewrite Hpk by exact Hk. apply Hpk'; lia.
Qed.

(** On the AES-128 build, over an array that held the byte 9 everywhere. *)
Lemma KeyExpansion_starts_with_key_witness :
  let s := default [] (KeyExpansion aes128_only (replicate 176 9%Z) fips_key) in
  (KeyExpansion aes128_only (replicate 176 9%Z) fips_key = Some s /\
   4 * Nk aes128_only <= length (replicate 176 9%Z)) /\
  length s = length (replicate 176 9%Z) /\
  forall k, k < 4 * Nk aes128_only -> peek s k = peek fips_key k.
Proof.
  intros s.
  assert (H1 : KeyExpansion aes128_only (replicate 176 9%Z) fips_key = Some s)
    by (vm_compute; reflexivity).
  assert (H2 : 4 * Nk aes128_only <= length (replicate 176 9%Z)) by (vm_compute; lia).
  split; [exact (conj H1 H2)|].
  exact (KeyExpansion_starts_with_key aes128_only (replicate 176 9%Z) fips_key s H1 H2).
Defined.



(** ** The block cipher and its inverse *)

(** With AES-128 alone enabled, [InvCipher] takes the ciphertext of FIPS-197,
    appendix B, back to its plaintext. *)
Example InvCipher_fips_197 :
  (fun rk => InvCipher aes128_only fips_ct rk) <$> KeyExpansion aes128_only (zeros 176) fips_key
  = Some fips_pt.
Proof. vm_compute. reflexivity. Qed.

(** [xtime] is linear over XOR, and XOR keeps bytes. *)
Local Open Scope Z_scope.

Lemma u8_land (z : Z) : u8 z = Z.land z 255.
Proof. unfold u8. change 255 with (Z.ones 8). now rewrite Z.land_ones by lia. Qed.

Lemma bit7 (x : Z) : Z.land (Z.shiftr x 7) 1 = if Z.testbit x 7 then 1 else 0.
Proof.
  change 1 with (Z.ones 1) at 1. rewrite Z.land_ones by lia.
  change (2 ^ 1) with 2. rewrite <- Z.bit0_mod.
  rewrite Z.shiftr_spec by lia. change (0 + 7) with 7.
  now destruct (Z.testbit x 7).
Qed.

Lemma xtime_eq (x : Z) :
  xtime x = Z.land (Z.lxor (Z.shiftl x 1) (if Z.testbit x 7 then 27 else 0)) 255.
Proof.
  unfold xtime. rewrite u8_land, bit7. now destruct (Z.testbit x 7).
Qed.

Lemma xtime_lxor (a b : Z) : xtime (Z.lxor a b) = Z.lxor (xtime a) (xtime b).
Proof.
  rewrite !xtime_eq. rewrite Z.lxor_spec, Z.shiftl_lxor.
  apply Z.bits_inj'. intros n Hn.
  rewrite ?Z.land_spec, ?Z.lxor_spec, ?Z.land_spec, ?Z.lxor_spec.
  destruct (Z.testbit a 7), (Z.testbit b 7); cbn [xorb];
    rewrite ?Z.bits_0; btauto.
Qed.

Lemma xtime_byte (x : Z) : is_byte (xtime x).
Proof. unfold xtime, is_byte, u8. apply Z.mod_pos_bound. lia. Qed.

Lemma is_byte_lxor (a b : Z) : is_byte a -> is_byte b -> is_byte (Z.lxor a b).
Proof.
  unfold is_byte. intros Ha Hb. split; [apply Z.lxor_nonneg; lia|].
  destruct (Z.eq_dec (Z.lxor a b) 0) as [E|E]; [lia|].
  assert (H0 : 0 <= Z.lxor a b) by (apply Z.lxor_nonneg; lia).
  apply (Z.log2_lt_pow2 _ 8); [lia|].
  pose proof (Z.log2_lxor a b ltac:(lia) ltac:(lia)) as HL.
  assert (La : Z.log2 a < 8).
  { destruct (Z.eq_dec a 0) as [->|]; [cbn; lia| apply Z.log2_lt_pow2; lia]. }
  assert (Lb : Z.log2 b < 8).
  { destruct (Z.eq_dec b 0) as [->|]; [cbn; lia| apply Z.log2_lt_pow2; lia]. }
  lia.
Qed.

Local Close Scope Z_scope.

(** The steps on a state of sixteen symbolic bytes. *)
Ltac explode s H :=
  do 17 (destruct s as [|? s]; try discriminate H); clear H.

Ltac run_state :=
  cbv [for_range seq fold_left st_get st_set peek Nat.mul Nat.add
       lookup list_lookup insert list_insert default from_option id option_rect].

Lemma SubBytes_map (s : list Z) : length s = 16 -> SubBytes s = map getSBoxValue s.
Proof. intros H. explode s H. unfold SubBytes. run_state. reflexivity. Qed.

Lemma InvSubBytes_map (s : list Z) : length s = 16 -> InvSubBytes s = map getSBoxInvert s.
Proof. intros H. explode s H. unfold InvSubBytes. run_state. reflexivity. Qed.

Lemma ShiftRows_block (s0 s1 s2 s3 s4 s5 s6 s7 s8 s9 s10 s11 s12 s13 s14 s15 : Z) :
  ShiftRows [s0; s1; s2; s3; s4; s5; s6; s7; s8; s9; s10; s11; s12; s13; s14; s15]
  = [s0; s5; s10; s15; s4; s9; s14; s3; s8; s13; s2; s7; s12; s1; s6; s11].
Proof. unfold ShiftRows. run_state. reflexivity. Qed.

Lemma InvShiftRows_block (s0 s1 s2 s3 s4 s5 s6 s7 s8 s9 s10 s11 s12 s13 s14 s15 : Z) :
  InvShiftRows [s0; s1; s2; s3; s4; s5; s6; s7; s8; s9; s10; s11; s12; s13; s14; s15]
  = [s0; s13; s10; s7; s4; s1; s14; s11; s8; s5; s2; s15; s12; s9; s6; s3].
Proof. unfold InvShiftRows. run_state. reflexivity. Qed.

Lemma MixColumns_block (s0 s1 s2 s3 s4 s5 s6 s7 s8 s9 s10 s11 s12 s13 s14 s15 : Z) :
  MixColumns [s0; s1; s2; s3; s4; s5; s6; s7; s8; s9; s10; s11; s12; s13; s14; s15]
  = mix_column s0 s1 s2 s3 ++ mix_column s4 s5 s6 s7 ++ mix_column s8 s9 s10 s11
    ++ mix_column s12 s13 s14 s15.
Proof. unfold MixColumns. run_state. reflexivity. Qed.

Lemma InvMixColumns_block (s0 s1 s2 s3 s4 s5 s6 s7 s8 s9 s10 s11 s12 s13 s14 s15 : Z) :
  InvMixColumns [s0; s1; s2; s3; s4; s5; s6; s7; s8; s9; s10; s11; s12; s13; s14; s15]
  = inv_mix_column s0 s1 s2 s3 ++ inv_mix_column s4 s5 s6 s7 ++ inv_mix_column s8 s9 s10 s11
    ++ inv_mix_column s12 s13 s14 s15.
Proof. unfold InvMixColumns. run_state. reflexivity. Qed.

Ltac land_consts :=
  repeat match goal with
  | |- context [Z.land ?a 1%Z] =>
      let v := eval vm_compute in (Z.land a 1%Z) in change (Z.land a 1%Z) with v
  end.

Lemma inv_mix_column_mix_column (a b c d : Z) :
  match mix_column a b c d with
  | [a'; b'; c'; d'] => inv_mix_column a' b' c' d'
  | _ => []
  end = [a; b; c; d].
Proof.
  cbv [mix_column inv_mix_column Multiply]. land_consts.
  rewrite ?Z.mul_0_l, ?Z.mul_1_l, ?Z.lxor_0_l, ?Z.lxor_0_r.
  rewrite !xtime_lxor.
  repeat f_equal; apply Z.bits_inj'; intros n Hn; rewrite !Z.lxor_spec; btauto.
Qed.

Lemma AddRoundKey_peek (round : nat) (s RK : list Z) (k : nat) :
  length s = 16 -> k < 16 ->
  peek (AddRoundKey round s RK) k = Z.lxor (peek s k) (peek RK (16 * round + k)).
Proof.
  intros H Hk. explode s H. unfold AddRoundKey.
  set (g := fun i j : nat => peek RK (round * Nb * 4 + i * Nb + j)).
  change (peek
    (for_range 0 4 (fun i state =>
       for_range 0 4 (fun j state =>
         st_set state i j (Z.lxor (st_get state i j) (g i j))) state)
       [z; z0; z1; z2; z3; z4; z5; z6; z7; z8; z9; z10; z11; z12; z13; z14]) k
    = Z.lxor (peek [z; z0; z1; z2; z3; z4; z5; z6; z7; z8; z9; z10; z11; z12; z13; z14] k)
             (peek RK (16 * round + k))).
  do 16 (destruct k as [|k];
    [match goal with |- _ = Z.lxor _ ?r => set (rhs := r) end;
     run_state; subst g rhs; cbv beta; do 2 f_equal; unfold Nb; lia|]).
  lia.
Qed.

Lemma length_AddRoundKey (round : nat) (s RK : list Z) :
  length (AddRoundKey round s RK) = length s.
Proof.
  unfold AddRoundKey.
  apply (for_range_inv (fun st => length st = length s)); [reflexivity|].
  intros i st _ Hst.
  apply (for_range_inv (fun st => length st = length s)); [exact Hst|].
  intros j st' _ Hst'. unfold st_set. now rewrite length_insert.
Qed.

Lemma AddRoundKey_involutive (round : nat) (s RK : list Z) :
  length s = 16 -> AddRoundKey round (AddRoundKey round s RK) RK = s.
Proof.
  intros H. apply list_eq_peek.
  - now rewrite !length_AddRoundKey.
  - rewrite !length_AddRoundKey, H. intros i Hi.
    rewrite !AddRoundKey_peek by (rewrite ?length_AddRoundKey; lia).
    now rewrite Z.lxor_assoc, Z.lxor_nilpotent, Z.lxor_0_r.
Qed.

Lemma peek_is_byte (a : list Z) (i : nat) : Forall is_byte a -> is_byte (peek a i).
Proof.
  intros Ha. unfold peek. destruct (a !! i) as [x|] eqn:E; simpl.
  - exact (proj1 (Forall_lookup _ _) Ha i x E).
  - unfold is_byte. lia.
Qed.

Lemma Forall_is_byte_peek (a : list Z) :
  (forall i, i < length a -> is_byte (peek a i)) -> Forall is_byte a.
Proof.
  intros H. apply Forall_lookup. intros i x E.
  specialize (H i (lookup_lt_Some _ _ _ E)). unfold peek in H. now rewrite E in H.
Qed.

Lemma forallb_is_byte (l : list Z) : forallb is_byteb l = true -> Forall is_byte l.
Proof.
  induction l as [|x l IH]; intros H; [constructor|].
  cbn [forallb] in H. apply andb_true_iff in H. destruct H as [Hx Hl].
  constructor; [|exact (IH Hl)].
  unfold is_byteb in Hx. apply andb_true_iff in Hx. unfold is_byte. lia.
Qed.

Lemma sbox_bytes : Forall is_byte sbox.
Proof. apply forallb_is_byte. vm_compute. reflexivity. Qed.

Lemma rsbox_bytes : Forall is_byte rsbox.
Proof. apply forallb_is_byte. vm_compute. reflexivity. Qed.

Lemma getSBoxValue_byte (x : Z) : is_byte (getSBoxValue x).
Proof. apply peek_is_byte, sbox_bytes. Qed.

Lemma getSBoxInvert_byte (x : Z) : is_byte (getSBoxInvert x).
Proof. apply peek_is_byte, rsbox_bytes. Qed.

Lemma getSBoxInvert_getSBoxValue (x : Z) : is_byte x -> getSBoxInvert (getSBoxValue x) = x.
Proof.
  intros Hx.
  assert (Hall : forallb (fun n => (getSBoxInvert (getSBoxValue (Z.of_nat n)) =? Z.of_nat n)%Z)
                         (seq 0 256) = true) by (vm_compute; reflexivity).
  rewrite forallb_forall in Hall.
  specialize (Hall (Z.to_nat x)). unfold is_byte in Hx.
  rewrite Z2Nat.id in Hall by lia. apply Z.eqb_eq, Hall, in_seq. lia.
Qed.

Lemma getSBoxValue_getSBoxInvert (x : Z) : is_byte x -> getSBoxValue (getSBoxInvert x) = x.
Proof.
  intros Hx.
  assert (Hall : forallb (fun n => (getSBoxValue (getSBoxInvert (Z.of_nat n)) =? Z.of_nat n)%Z)
                         (seq 0 256) = true) by (vm_compute; reflexivity).
  rewrite forallb_forall in Hall.
  specialize (Hall (Z.to_nat x)). unfold is_byte in Hx.
  rewrite Z2Nat.id in Hall by lia. apply Z.eqb_eq, Hall, in_seq. lia.
Qed.

(** Every step keeps a block of bytes, and every inverse step undoes its
    step. *)

Lemma byte_block_SubBytes (s : list Z) : length s = 16 -> byte_block (SubBytes s).
Proof.
  intros H. rewrite SubBytes_map by exact H. split; [now rewrite length_map|].
  apply Forall_fmap, Forall_true. intros x. apply getSBoxValue_byte.
Qed.

Ltac split_Forall H :=
  repeat (apply Forall_cons in H; destruct H as [? H]).

Lemma byte_block_ShiftRows (s : list Z) : byte_block s -> byte_block (ShiftRows s).
Proof.
  intros [H HB]. explode s H. rewrite ShiftRows_block. split; [reflexivity|].
  split_Forall HB. repeat (constructor; [assumption|]). constructor.
Qed.

Lemma Forall_mix_column (a b c d : Z) :
  is_byte a -> is_byte b -> is_byte c -> is_byte d -> Forall is_byte (mix_column a b c d).
Proof.
  intros Ha Hb Hc Hd. unfold mix_column.
  repeat (constructor; [repeat (apply is_byte_lxor || apply xtime_byte || assumption)|]).
  constructor.
Qed.

Lemma byte_block_MixColumns (s : list Z) : byte_block s -> byte_block (MixColumns s).
Proof.
  intros [H HB]. explode s H. rewrite MixColumns_block. split; [reflexivity|].
  split_Forall HB. repeat (apply Forall_app; split); now apply Forall_mix_column.
Qed.

Lemma byte_block_AddRoundKey (round : nat) (s RK : list Z) :
  Forall is_byte RK -> byte_block s -> byte_block (AddRoundKey round s RK).
Proof.
  intros HRK [H HB]. split; [now rewrite length_AddRoundKey|].
  apply Forall_is_byte_peek. rewrite length_AddRoundKey, H. intros i Hi.
  rewrite AddRoundKey_peek by lia. apply is_byte_lxor; now apply peek_is_byte.
Qed.

Lemma InvShiftRows_ShiftRows (s : list Z) : length s = 16 -> InvShiftRows (ShiftRows s) = s.
Proof. intros H. explode s H. now rewrite ShiftRows_block, InvShiftRows_block. Qed.

Lemma InvSubBytes_SubBytes (s : list Z) : byte_block s -> InvSubBytes (SubBytes s) = s.
Proof.
  intros [H HB]. rewrite (SubBytes_map s H), InvSubBytes_map by now rewrite length_map.
  rewrite map_map. rewrite <- (map_id s) at 2. apply map_ext_Forall.
  eapply Forall_impl; [exact HB|]. intros x Hx. now apply getSBoxInvert_getSBoxValue.
Qed.

Lemma InvMixColumns_MixColumns (s : list Z) : length s = 16 -> InvMixColumns (MixColumns s) = s.
Proof.
  intros H. explode s H. rewrite MixColumns_block.
  unfold mix_column at 1 2 3 4. cbn [app]. rewrite InvMixColumns_block.
  fold (mix_column z z0 z1 z2) (mix_column z3 z4 z5 z6) (mix_column z7 z8 z9 z10)
       (mix_column z11 z12 z13 z14).
  pose proof (inv_mix_column_mix_column z z0 z1 z2) as H0.
  pose proof (inv_mix_column_mix_column z3 z4 z5 z6) as H1.
  pose proof (inv_mix_column_mix_column z7 z8 z9 z10) as H2.
  pose proof (inv_mix_column_mix_column z11 z12 z13 z14) as H3.
  unfold mix_column in H0, H1, H2, H3. cbv iota in H0, H1, H2, H3.
  rewrite H0, H1, H2, H3. reflexivity.
Qed.

(** [InvCipher] undoes [Cipher], round by round. *)
Section Cipher_inverse.
Variable f : build_flags.
Variable RK : list Z.
Hypothesis HRK : Forall is_byte RK.

Lemma Cipher_rounds_0 (round : nat) (t : list Z) :
  Cipher_rounds 0 round t RK = ShiftRows (SubBytes t).
Proof. reflexivity. Qed.

Lemma Cipher_rounds_S (k round : nat) (t : list Z) :
  Cipher_rounds (S k) round t RK
  = Cipher_rounds k (S round) (AddRoundKey round (MixColumns (ShiftRows (SubBytes t))) RK) RK.
Proof. cbv beta iota zeta delta [Cipher_rounds]. reflexivity. Qed.

Lemma byte_block_Cipher_rounds (k : nat) :
  forall round t, byte_block t -> byte_block (Cipher_rounds k round t RK).
Proof.
  induction k as [|k IH]; intros round t Ht.
  - rewrite Cipher_rounds_0.
    exact (byte_block_ShiftRows _ (byte_block_SubBytes t (proj1 Ht))).
  - rewrite Cipher_rounds_S. apply IH. apply (byte_block_AddRoundKey _ _ _ HRK).
    exact (byte_block_MixColumns _ (byte_block_ShiftRows _ (byte_block_SubBytes t (proj1 Ht)))).
Qed.

Lemma byte_block_Cipher (s : list Z) : byte_block s -> byte_block (Cipher f s RK).
Proof.
  intros Hs. unfold Cipher. cbv zeta.
  apply (byte_block_AddRoundKey _ _ _ HRK).
  apply byte_block_Cipher_rounds. exact (byte_block_AddRoundKey 0 s RK HRK Hs).
Qed.

Lemma InvCipher_rounds_0 (x : list Z) :
  InvCipher_rounds 0 x RK = AddRoundKey 0 (InvSubBytes (InvShiftRows x)) RK.
Proof. reflexivity. Qed.

Lemma InvCipher_rounds_S (r : nat) (x : list Z) :
  InvCipher_rounds (S r) x RK
  = InvCipher_rounds r (InvMixColumns (AddRoundKey (S r) (InvSubBytes (InvShiftRows x)) RK)) RK.
Proof. cbv beta iota zeta delta [InvCipher_rounds]. reflexivity. Qed.

Lemma undo_last_steps (t : list Z) :
  byte_block t -> InvSubBytes (InvShiftRows (ShiftRows (SubBytes t))) = t.
Proof.
  intros Ht. rewrite (InvShiftRows_ShiftRows _ (proj1 (byte_block_SubBytes t (proj1 Ht)))).
  exact (InvSubBytes_SubBytes t Ht).
Qed.

Lemma InvCipher_rounds_Cipher_rounds (k : nat) :
  forall r t, byte_block t ->
    InvCipher_rounds (r + k) (Cipher_rounds k (S r) t RK) RK
    = InvCipher_rounds r (ShiftRows (SubBytes t)) RK.
Proof.
  induction k as [|k IH]; intros r t Ht.
  - rewrite Nat.add_0_r, Cipher_rounds_0. reflexivity.
  - rewrite Cipher_rounds_S.
    set (t' := AddRoundKey (S r) (MixColumns (ShiftRows (SubBytes t))) RK).
    assert (Hs : byte_block (ShiftRows (SubBytes t))).
    { exact (byte_block_ShiftRows _ (byte_block_SubBytes t (proj1 Ht))). }
    assert (Hm : byte_block (MixColumns (ShiftRows (SubBytes t)))).
    { exact (byte_block_MixColumns _ Hs). }
    assert (Ht' : byte_block t') by exact (byte_block_AddRoundKey (S r) _ RK HRK Hm).
    replace (r + S k) with (S r + k) by lia.
    rewrite (IH (S r) t' Ht').
    rewrite (InvCipher_rounds_S r). rewrite (undo_last_steps t' Ht').
    unfold t'. rewrite (AddRoundKey_involutive (S r) _ RK (proj1 Hm)).
    rewrite (InvMixColumns_MixColumns _ (proj1 Hs)). reflexivity.
Qed.

Lemma InvCipher_Cipher (s : list Z) : byte_block s -> InvCipher f (Cipher f s RK) RK = s.
Proof.
  intros Hs. unfold InvCipher, Cipher. cbv zeta.
  assert (H0 : byte_block (AddRoundKey 0 s RK)) by exact (byte_block_AddRoundKey 0 s RK HRK Hs).
  rewrite (AddRoundKey_involutive (Nr f) _ RK
             (proj1 (byte_block_Cipher_rounds (Nr f - 1) 1 _ H0))).
  pose proof (InvCipher_rounds_Cipher_rounds (Nr f - 1) 0 _ H0) as HR.
  rewrite Nat.add_0_l in HR. rewrite HR.
  rewrite InvCipher_rounds_0. rewrite (undo_last_steps _ H0).
  exact (AddRoundKey_involutive 0 s RK (proj1 Hs)).
Qed.

End Cipher_inverse.

(** X13: [Cipher] under a schedule of bytes is one-to-one on 16-byte blocks: two
    different blocks are never encrypted to the same block.  The inverse is
    the code's own [InvCipher]. *)
Theorem Cipher_injective (f : build_flags) (RK s s' : list Z) :
  Forall is_byte RK -> byte_block s -> byte_block s' -> s <> s' ->
  Cipher f s RK <> Cipher f s' RK.
Proof.
  intros HRK Hs Hs' Hne E. apply Hne.
  rewrite <- (InvCipher_Cipher f RK HRK s Hs), <- (InvCipher_Cipher f RK HRK s' Hs').
  now rewrite E.
Qed.

(** The schedule of [ctx_ramp] is made of bytes. *)
Lemma ctx_ramp_bytes : Forall is_byte (RoundKey ctx_ramp).
Proof. apply forallb_is_byte. vm_compute. reflexivity. Qed.

Lemma byte_block_check (s : list Z) :
  (length s =? 16) && forallb is_byteb s = true -> byte_block s.
Proof.
  intros H. apply andb_true_iff in H. destruct H as [Hl Hb].
  split; [now apply Nat.eqb_eq | now apply forallb_is_byte].
Qed.

(** On the all-zero block and the plaintext of FIPS-197, under [ctx_ramp]. *)
Lemma Cipher_injective_witness :
  (Forall is_byte (RoundKey ctx_ramp) /\ byte_block (zeros 16) /\ byte_block fips_pt /\
   zeros 16 <> fips_pt) /\
  Cipher aes_h (zeros 16) (RoundKey ctx_ramp) <> Cipher aes_h fips_pt (RoundKey ctx_ramp).
Proof.
  assert (H1 : byte_block (zeros 16)) by (apply byte_block_check; vm_compute; reflexivity).
  assert (H2 : byte_block fips_pt) by (apply byte_block_check; vm_compute; reflexivity).
  assert (H3 : zeros 16 <> fips_pt) by (vm_compute; discriminate).
  split; [exact (conj ctx_ramp_bytes (conj H1 (conj H2 H3)))|].
  exact (Cipher_injective aes_h (RoundKey ctx_ramp) (zeros 16) fips_pt ctx_ramp_bytes H1 H2 H3).
Defined.

(** X14: [Cipher] under a schedule of bytes maps a block of 16 bytes to a block
    of 16 bytes: no stored value leaves the range of [uint8_t]. *)
Theorem Cipher_byte_block (f : build_flags) (RK s : list Z) :
  Forall is_byte RK -> byte_block s -> byte_block (Cipher f s RK).
Proof.
  intros HRK Hs. unfold Cipher. cbv zeta.
  apply (byte_block_AddRoundKey _ _ _ HRK).
  apply (byte_block_Cipher_rounds RK HRK). exact (byte_block_AddRoundKey 0 s RK HRK Hs).
Qed.

(** On the plaintext of FIPS-197, under [ctx_ramp]. *)
Lemma Cipher_byte_block_witness :
  (Forall is_byte (RoundKey ctx_ramp) /\ byte_block fips_pt) /\
  byte_block (Cipher aes_h fips_pt (RoundKey ctx_ramp)).
Proof.
  assert (H2 : byte_block fips_pt) by (apply byte_block_check; vm_compute; reflexivity).
  split; [exact (conj ctx_ramp_bytes H2)|].
  exact (Cipher_byte_block aes_h (RoundKey ctx_ramp) fips_pt ctx_ramp_bytes H2).
Defined.

(** X15: [ShiftRows] rotates row [r] of the state by [r] columns to the left:
    the byte of column [c] comes from column [(c + r) mod 4] of the same
    row.  (The state is stored by columns: [state[c][r]].) *)
Theorem ShiftRows_rotates_rows (s : list Z) (c r : nat) :
  length s = 16 -> c < 4 -> r < 4 ->
  length (ShiftRows s) = 16 /\
  st_get (ShiftRows s) c r = st_get s ((c + r) mod 4) r.
Proof.
  intros H Hc Hr. explode s H. rewrite ShiftRows_block. split; [reflexivity|].
  do 4 (destruct c as [|c]; [do 4 (destruct r as [|r]; [reflexivity|]); lia|]). lia.
Qed.

(** On the plaintext of FIPS-197, column 3 of row 2. *)
Lemma ShiftRows_rotates_rows_witness :
  (length fips_pt = 16 /\ 3 < 4 /\ 2 < 4) /\
  length (ShiftRows fips_pt) = 16 /\
  st_get (ShiftRows fips_pt) 3 2 = st_get fips_pt ((3 + 2) mod 4) 2.
Proof.
  assert (H1 : length fips_pt = 16) by reflexivity.
  assert (H2 : 3 < 4) by lia. assert (H3 : 2 < 4) by lia.
  split; [exact (conj H1 (conj H2 H3))|].
  exact (ShiftRows_rotates_rows fips_pt 3 2 H1 H2 H3).
Defined.

(** X16: [MixColumns] multiplies every column [(a, b, c, d)] by the matrix
    of FIPS-197, [[2 3 1 1] [1 2 3 1] [1 1 2 3] [3 1 1 2]], over GF(2^8). *)
Theorem MixColumns_matrix (s : list Z) (i : nat) :
  length s = 16 -> i < 4 ->
  let a := st_get s i 0 in
  let b := st_get s i 1 in
  let c := st_get s i 2 in
  let d := st_get s i 3 in
  st_get (MixColumns s) i 0 = Z.lxor (Z.lxor (Z.lxor (gf_mul2 a) (gf_mul3 b)) c) d /\
  st_get (MixColumns s) i 1 = Z.lxor (Z.lxor (Z.lxor a (gf_mul2 b)) (gf_mul3 c)) d /\
  st_get (MixColumns s) i 2 = Z.lxor (Z.lxor (Z.lxor a b) (gf_mul2 c)) (gf_mul3 d) /\
  st_get (MixColumns s) i 3 = Z.lxor (Z.lxor (Z.lxor (gf_mul3 a) b) c) (gf_mul2 d).
Proof.
  intros H Hi. explode s H. rewrite MixColumns_block.
  unfold gf_mul2, gf_mul3.
  do 4 (destruct i as [|i];
    [cbv [st_get peek mix_column app Nat.mul Nat.add lookup list_lookup default from_option id];
     rewrite !xtime_lxor;
     repeat split; apply Z.bits_inj'; intros n Hn; rewrite !Z.lxor_spec; btauto|]).
  lia.
Qed.

(** On column 2 of the plaintext of FIPS-197. *)
Lemma MixColumns_matrix_witness :
  (length fips_pt = 16 /\ 2 < 4) /\
  let a := st_get fips_pt 2 0 in
  let b := st_get fips_pt 2 1 in
  let c := st_get fips_pt 2 2 in
  let d := st_get fips_pt 2 3 in
  st_get (MixColumns fips_pt) 2 0 = Z.lxor (Z.lxor (Z.lxor (gf_mul2 a) (gf_mul3 b)) c) d /\
  st_get (MixColumns fips_pt) 2 1 = Z.lxor (Z.lxor (Z.lxor a (gf_mul2 b)) (gf_mul3 c)) d /\
  st_get (MixColumns fips_pt) 2 2 = Z.lxor (Z.lxor (Z.lxor a b) (gf_mul2 c)) (gf_mul3 d) /\
  st_get (MixColumns fips_pt) 2 3 = Z.lxor (Z.lxor (Z.lxor (gf_mul3 a) b) c) (gf_mul2 d).
Proof.
  assert (H1 : length fips_pt = 16) by reflexivity.
  assert (H2 : 2 < 4) by lia.
  split; [exact (conj H1 H2)|].
  exact (MixColumns_matrix fips_pt 2 H1 H2).
Defined.

Local Open Scope Z_scope.

(** X17: On a byte, [xtime] is the doubling of GF(2^8): a shift to the left by
    one bit, reduced by 0x11b when the top bit is set; the result is a
    byte. *)
Theorem xtime_doubles (x : Z) :
  is_byte x ->
  is_byte (xtime x) /\
  xtime x = if x <? 128 then 2 * x else Z.lxor (2 * x - 256) 0x1b.
Proof.
  intros Hx. split; [apply xtime_byte|].
  assert (Hall : forallb (fun n => let x := Z.of_nat n in
                   xtime x =? (if x <? 128 then 2 * x else Z.lxor (2 * x - 256) 0x1b))
                   (seq 0 256) = true) by (vm_compute; reflexivity).
  rewrite forallb_forall in Hall.
  specialize (Hall (Z.to_nat x)). unfold is_byte in Hx. cbv zeta in Hall.
  rewrite Z2Nat.id in Hall by lia. apply Z.eqb_eq, Hall, in_seq. lia.
Qed.

(** On the byte 0x87, whose top bit is set. *)
Lemma xtime_doubles_witness :
  is_byte 0x87 /\ is_byte (xtime 0x87) /\
  xtime 0x87 = if 0x87 <? 128 then 2 * 0x87 else Z.lxor (2 * 0x87 - 256) 0x1b.
Proof.
  assert (H : is_byte 0x87) by (unfold is_byte; lia).
  split; [exact H|]. exact (xtime_doubles 0x87 H).
Defined.

Local Close Scope Z_scope.

(** ** The tag and a 12-byte IV *)

(** With a 12-byte IV, [J0] is the IV followed by 0, 0, 0, 1, and the tag
    is [Cipher(J0)], the accumulator being zero. *)
Section IV_check.
Variable f : build_flags.
Variable ctx : AES_ctx.

Lemma gcm_J0_12 (iv : list Z) :
  gcm_J0 f ctx iv AES_GCM_IV_LEN = map (peek iv) (seq 0 12) ++ [0; 0; 0; 1]%Z.
Proof.
  unfold gcm_J0, gcm_H_J0. rewrite Nat.eqb_refl. cbv beta iota zeta delta [fst].
  unfold AES_GCM_IV_LEN, AES_BLOCKLEN.
  rewrite take_memcpy, drop_memcpy.
  set (X := map (peek iv) (seq 0 12)).
  assert (HX : length X = 12) by (unfold X; now rewrite length_map, length_seq).
  change (memset (drop 12 (zeros 16)) 0 (16 - 12 - 1)) with [0; 0; 0; 0]%Z.
  change (16 - 1) with 15.
  rewrite (insert_app_r_alt X _ 15) by lia. rewrite HX. reflexivity.
Qed.

Lemma byte_block_gcm_J0_12 (iv : list Z) :
  Forall is_byte iv -> byte_block (gcm_J0 f ctx iv AES_GCM_IV_LEN).
Proof.
  intros Hiv. rewrite gcm_J0_12. split.
  - rewrite length_app, length_map, length_seq. reflexivity.
  - apply Forall_app. split.
    + apply Forall_fmap, Forall_true. intros i. now apply peek_is_byte.
    + repeat (constructor; [unfold is_byte; lia|]). constructor.
Qed.

Lemma peek_gcm_tag (iv : list Z) (iv_len : nat) (aad : list Z) (aad_len : nat)
    (text : list Z) (text_len : nat) (i : nat) :
  i < 16 ->
  peek (gcm_tag f ctx iv iv_len aad aad_len text text_len) i = peek (gcm_EK0 f ctx iv iv_len) i.
Proof.
  intros Hi. unfold gcm_tag. rewrite gcm_S_zero. unfold xor_tag, AES_GCM_TAG_LEN.
  unfold peek at 1. rewrite list_lookup_fmap, lookup_seq_lt by exact Hi. simpl.
  rewrite peek_zeros. apply Z.lxor_0_l.
Qed.

Lemma gcm_EK0_12_inj (iv iv' : list Z) :
  Forall is_byte (RoundKey ctx) -> Forall is_byte iv -> Forall is_byte iv' ->
  (forall i, i < 16 -> peek (gcm_EK0 f ctx iv AES_GCM_IV_LEN) i
                       = peek (gcm_EK0 f ctx iv' AES_GCM_IV_LEN) i) ->
  forall i, i < 12 -> peek iv i = peek iv' i.
Proof.
  intros HRK Hiv Hiv' Hag.
  pose proof (byte_block_gcm_J0_12 iv Hiv) as HJ.
  pose proof (byte_block_gcm_J0_12 iv' Hiv') as HJ'.
  unfold gcm_EK0 in Hag. unfold AES_BLOCKLEN in Hag.
  rewrite (memcpy_16 (zeros 16) _ eq_refl (proj1 HJ)) in Hag.
  rewrite (memcpy_16 (zeros 16) _ eq_refl (proj1 HJ')) in Hag.
  assert (HE : Cipher f (gcm_J0 f ctx iv AES_GCM_IV_LEN) (RoundKey ctx)
             = Cipher f (gcm_J0 f ctx iv' AES_GCM_IV_LEN) (RoundKey ctx)).
  { pose proof (byte_block_Cipher f _ HRK _ HJ) as [HL _].
    pose proof (byte_block_Cipher f _ HRK _ HJ') as [HL' _].
    apply list_eq_peek; [congruence|]. intros i Hi. apply Hag. lia. }
  assert (HJJ : gcm_J0 f ctx iv AES_GCM_IV_LEN = gcm_J0 f ctx iv' AES_GCM_IV_LEN).
  { rewrite <- (InvCipher_Cipher f _ HRK _ HJ), <- (InvCipher_Cipher f _ HRK _ HJ').
    now rewrite HE. }
  rewrite !gcm_J0_12 in HJJ. apply app_inv_tail in HJJ.
  intros i Hi.
  assert (Hin : In i (seq 0 12)) by (apply in_seq; lia).
  exact (proj1 (map_ext_in_iff) HJJ i Hin).
Qed.

End IV_check.

(** X18: With the recommended 12-byte IV, the tag binds the IV: a tag that
    [AES_GCM_decrypt] accepts under one IV is rejected under every IV that
    differs from it in one of its 12 bytes. *)
Theorem AES_GCM_decrypt_rejects_other_iv (f : build_flags) (ctx : AES_ctx)
    (iv iv' : list Z) (aad : ptr) (aad_len : nat)
    (ct pt : ptr) (ct_len : nat) (tag : ptr) (i : nat) :
  Forall is_byte (RoundKey ctx) -> Forall is_byte iv -> Forall is_byte iv' ->
  AES_GCM_IV_LEN <= length iv -> AES_GCM_IV_LEN <= length iv' ->
  i < AES_GCM_IV_LEN -> peek iv i <> peek iv' i ->
  dec_rc (AES_GCM_decrypt f ctx (Some iv) AES_GCM_IV_LEN aad aad_len ct pt ct_len tag) = Success ->
  dec_rc (AES_GCM_decrypt f ctx (Some iv') AES_GCM_IV_LEN aad aad_len ct pt ct_len tag)
  = AuthenticationFailed.
Proof.
  intros HRK Hiv Hiv' _ _ Hi Hne Hok.
  destruct (arg_check AES_GCM_IV_LEN aad aad_len ct pt ct_len tag) eqn:Hchk.
  { rewrite AES_GCM_decrypt_invalid in Hok by exact Hchk. discriminate. }
  rewrite AES_GCM_decrypt_run in Hok |- * by exact Hchk. rewrite !deref_Some in *.
  set (T := gcm_tag f ctx iv AES_GCM_IV_LEN (deref aad) aad_len (deref ct) ct_len) in *.
  set (T' := gcm_tag f ctx iv' AES_GCM_IV_LEN (deref aad) aad_len (deref ct) ct_len) in *.
  destruct (Z.eqb_spec (constant_time_memcmp T (deref tag) AES_GCM_TAG_LEN) 0) as [Heq|Hneq];
    [|discriminate Hok].
  destruct (Z.eqb_spec (constant_time_memcmp T' (deref tag) AES_GCM_TAG_LEN) 0)
    as [Heq'|Hneq']; [|reflexivity].
  exfalso. apply Hne.
  pose proof (proj1 (constant_time_memcmp_0 _ _ _) Heq) as HT.
  pose proof (proj1 (constant_time_memcmp_0 _ _ _) Heq') as HT'.
  apply (gcm_EK0_12_inj f ctx iv iv' HRK Hiv Hiv'); [|exact Hi].
  intros k Hk.
  rewrite <- (peek_gcm_tag f ctx iv AES_GCM_IV_LEN (deref aad) aad_len (deref ct) ct_len k Hk).
  rewrite <- (peek_gcm_tag f ctx iv' AES_GCM_IV_LEN (deref aad) aad_len (deref ct) ct_len k Hk).
  fold T T'. rewrite (HT k Hk), (HT' k Hk). reflexivity.
Qed.

(** On the IVs 1..12 and 2..13, which differ in byte 0. *)
Lemma AES_GCM_decrypt_rejects_other_iv_witness :
  let iv := bytes_from 1 12 in
  let iv' := bytes_from 2 12 in
  let aad := Some (bytes_from 100 3) in
  let e := AES_GCM_encrypt aes_h ctx_ramp (Some iv) 12 aad 3 (Some (bytes_from 50 20))
             (Some (zeros 20)) 20 (Some (zeros 16)) in
  let ct := snd (fst e) in
  let tag := snd e in
  let pt := Some (zeros 20) in
  (Forall is_byte (RoundKey ctx_ramp) /\ Forall is_byte iv /\ Forall is_byte iv' /\
   AES_GCM_IV_LEN <= length iv /\ AES_GCM_IV_LEN <= length iv' /\
   0 < AES_GCM_IV_LEN /\ peek iv 0 <> peek iv' 0 /\
   dec_rc (AES_GCM_decrypt aes_h ctx_ramp (Some iv) AES_GCM_IV_LEN aad 3 ct pt 20 tag)
   = Success) /\
  dec_rc (AES_GCM_decrypt aes_h ctx_ramp (Some iv') AES_GCM_IV_LEN aad 3 ct pt 20 tag)
  = AuthenticationFailed.
Proof.
  intros iv iv' aad e ct tag pt.
  assert (H2 : Forall is_byte iv) by (apply forallb_is_byte; vm_compute; reflexivity).
  assert (H3 : Forall is_byte iv') by (apply forallb_is_byte; vm_compute; reflexivity).
  assert (H4 : AES_GCM_IV_LEN <= length iv) by (vm_compute; lia).
  assert (H5 : AES_GCM_IV_LEN <= length iv') by (vm_compute; lia).
  assert (H6 : 0 < AES_GCM_IV_LEN) by (vm_compute; lia).
  assert (H7 : peek iv 0 <> peek iv' 0) by (vm_compute; discriminate).
  assert (H8 : dec_rc (AES_GCM_decrypt aes_h ctx_ramp (Some iv) AES_GCM_IV_LEN aad 3 ct pt 20
                         tag) = Success) by (vm_compute; reflexivity).
  split; [exact (conj ctx_ramp_bytes (conj H2 (conj H3 (conj H4 (conj H5 (conj H6
                  (conj H7 H8)))))))|].
  exact (AES_GCM_decrypt_rejects_other_iv aes_h ctx_ramp iv iv' aad 3 ct pt 20 tag 0
           ctx_ramp_bytes H2 H3 H4 H5 H6 H7 H8).
Defined.

(** ** Key schedule: bytes *)

Lemma Rcon_bytes : Forall is_byte Rcon.
Proof. apply forallb_is_byte. vm_compute. reflexivity. Qed.

Lemma is_byte_peek_insert (a : list Z) (j k : nat) (v : Z) :
  is_byte v -> (k <> j -> is_byte (peek a k)) -> is_byte (peek (<[j := v]> a) k).
Proof.
  intros Hv Hk. destruct (decide (k = j)) as [->|Hne].
  - destruct (decide (j < length a)) as [Hlt|Hge].
    + now rewrite peek_insert_eq by exact Hlt.
    + unfold peek. rewrite lookup_ge_None_2 by (rewrite length_insert; lia).
      unfold is_byte. simpl. lia.
  - rewrite peek_insert_ne by congruence. exact (Hk Hne).
Qed.

Lemma KeyExpansion_word_bytes_byte (f : build_flags) (i : nat) (a : list Z) (b0 b1 b2 b3 : Z) :
  1 <= Nk f <= i -> (forall k, k < 4 * i -> is_byte (peek a k)) ->
  KeyExpansion_word_bytes f i a = Some (b0, b1, b2, b3) ->
  is_byte b0 /\ is_byte b1 /\ is_byte b2 /\ is_byte b3.
Proof.
  intros HNk Ha. unfold KeyExpansion_word_bytes.
  assert (H0 : forall c, c < 4 -> is_byte (peek a ((i - 1) * 4 + c))) by (intros; apply Ha; lia).
  assert (H1 : forall c, c < 4 -> is_byte (peek a ((i - Nk f) * 4 + c)))
    by (intros; apply Ha; lia).
  pose proof (H0 0 ltac:(lia)). pose proof (H0 1 ltac:(lia)).
  pose proof (H0 2 ltac:(lia)). pose proof (H0 3 ltac:(lia)).
  pose proof (H1 0 ltac:(lia)). pose proof (H1 1 ltac:(lia)).
  pose proof (H1 2 ltac:(lia)). pose proof (H1 3 ltac:(lia)).
  destruct (i mod Nk f =? 0).
  - destruct (Rcon !! Rcon_index f i) as [rc|] eqn:Hrc; cbn [mbind option_bind];
      [|discriminate].
    assert (Hb : is_byte rc) by exact (proj1 (Forall_lookup _ _) Rcon_bytes _ _ Hrc).
    destruct ((6 <? Nk f) && (i mod Nk f =? 4)); cbv zeta; intros E;
      injection E as <- <- <- <-;
      repeat split; repeat (apply is_byte_lxor || apply getSBoxValue_byte || assumption).
  - cbn [mbind option_bind].
    destruct ((6 <? Nk f) && (i mod Nk f =? 4)); cbv zeta; intros E;
      injection E as <- <- <- <-;
      repeat split; repeat (apply is_byte_lxor || apply getSBoxValue_byte || assumption).
Qed.

Lemma store_word_bytes (i : nat) (b0 b1 b2 b3 : Z) (a : list Z) :
  is_byte b0 -> is_byte b1 -> is_byte b2 -> is_byte b3 ->
  (forall k, k < 4 * i -> is_byte (peek a k)) ->
  forall k, k < 4 * S i -> is_byte (peek (store_word i (b0, b1, b2, b3) a) k).
Proof.
  intros h0 h1 h2 h3 Ha k Hk. unfold store_word.
  apply is_byte_peek_insert; [exact h3|]. intros n3.
  apply is_byte_peek_insert; [exact h2|]. intros n2.
  apply is_byte_peek_insert; [exact h1|]. intros n1.
  apply is_byte_peek_insert; [exact h0|]. intros n0.
  apply Ha. lia.
Qed.

Lemma KeyExpansion_words_bytes (f : build_flags) (n : nat) :
  forall (lo : nat) (a a' : list Z),
  1 <= Nk f <= lo ->
  (forall k, k < 4 * lo -> is_byte (peek a k)) ->
  KeyExpansion_words f n lo a = Some a' ->
  forall k, k < 4 * (lo + n) -> is_byte (peek a' k).
Proof.
  induction n as [|n IH]; intros lo a a' HNk Ha E.
  - cbn [KeyExpansion_words] in E. injection E as <-. now rewrite Nat.add_0_r.
  - cbn [KeyExpansion_words] in E. rewrite KeyExpansion_word_split in E by exact HNk.
    destruct (KeyExpansion_word_bytes f lo a) as [[[[b0 b1] b2] b3]|] eqn:Ew; [|discriminate E].
    cbn [mbind option_bind] in E.
    destruct (KeyExpansion_word_bytes_byte f lo a b0 b1 b2 b3 HNk Ha Ew) as (h0 & h1 & h2 & h3).
    assert (HNk' : 1 <= Nk f <= S lo) by lia.
    pose proof (IH (S lo) _ a' HNk' (store_word_bytes lo b0 b1 b2 b3 a h0 h1 h2 h3 Ha) E) as HH.
    intros k Hk. apply HH. lia.
Qed.

(** X19: The schedule of a key made of bytes is made of bytes. *)
Theorem KeyExpansion_bytes (f : build_flags) (RoundKey0 Key s : list Z) :
  length RoundKey0 = AES_keyExpSize f -> Forall is_byte Key ->
  KeyExpansion f RoundKey0 Key = Some s ->
  length s = AES_keyExpSize f /\ Forall is_byte s.
Proof.
  intros Hlen HKey Hs. unfold KeyExpansion in Hs.
  destruct (Nk_bounds f) as [HNk Hsize].
  assert (HNk' : 1 <= Nk f <= Nk f) by lia.
  destruct (KeyExpansion_words_frame f _ _ _ _ HNk' Hs) as [Hl _].
  destruct (KeyExpansion_copy_spec f RoundKey0 Key) as [Hl' Hpk'].
  assert (Hls : length s = AES_keyExpSize f) by congruence.
  split; [exact Hls|].
  apply Forall_is_byte_peek. intros k Hk.
  apply (KeyExpansion_words_bytes f (Nb * (Nr f + 1) - Nk f) (Nk f)
           (KeyExpansion_copy f RoundKey0 Key) s HNk'); [|exact Hs|lia].
  intros j Hj. rewrite Hpk' by lia. now apply peek_is_byte.
Qed.

(** On the AES-128 build and the key of FIPS-197, appendix B. *)
Lemma KeyExpansion_bytes_witness :
  let s := default [] (KeyExpansion aes128_only (zeros 176) fips_key) in
  (length (zeros 176) = AES_keyExpSize aes128_only /\ Forall is_byte fips_key /\
   KeyExpansion aes128_only (zeros 176) fips_key = Some s) /\
  length s = AES_keyExpSize aes128_only /\ Forall is_byte s.
Proof.
  intros s.
  assert (H1 : length (zeros 176) = AES_keyExpSize aes128_only) by reflexivity.
  assert (H2 : Forall is_byte fips_key) by (apply forallb_is_byte; vm_compute; reflexivity).
  assert (H3 : KeyExpansion aes128_only (zeros 176) fips_key = Some s)
    by (vm_compute; reflexivity).
  split; [exact (conj H1 (conj H2 H3))|].
  exact (KeyExpansion_bytes aes128_only (zeros 176) fips_key s H1 H2 H3).
Defined.
